(** * Table checkboxes: the checkbox detection and conversion engine

    A shallow embedding of [src/settings.ts] (the plugin class
    [TableCheckboxesPlugin]) and the properties of it that the specification
    states.

    Strings are lists of 8-bit code units ([list ascii]); positions inside a
    line are [Z] because the source computes them by subtraction and indexes
    strings with them ([rowValue[ch-2]], [viewData.slice(ch-4, ...)]).

    The file has two parts.  The first holds the definitions: JavaScript
    strings ([JS]), the regular expressions of the source and their
    backtracking matcher ([Regex]), the host ([Host]: editor, vault, random
    source), the runs of a method in a world ([Run]) and the methods of the
    plugin ([Plugin]).  The second holds the properties, one module for each
    component of the specification. *)

From Stdlib Require Import Ascii String.
From Stdlib Require Import List ZArith NArith Lia Bool Arith.
Import ListNotations.

Set Implicit Arguments.

(** ** JavaScript strings *)

Module JS.

Definition str := list ascii.

Definition lit (s : string) : str := list_ascii_of_string s.
Arguments lit s%_string.

Definition ascii_eqb (a b : ascii) : bool := Ascii.eqb a b.
Arguments ascii_eqb (a b)%_char.

(** [s[i]] : the code unit at index [i], [None] for [undefined]. *)
Definition charAt (s : str) (i : Z) : option ascii :=
  if (i <? 0)%Z then None else nth_error s (Z.to_nat i).

(** [s[i] === c] for a one-character string [c]. *)
Definition charIs (s : str) (i : Z) (c : ascii) : bool :=
  match charAt s i with
  | Some d => ascii_eqb d c
  | None => false
  end.

(** The index arithmetic of [String.prototype.slice]: a negative index counts
    from the end, and both ends are clamped to the string. *)
Definition clampIndex (len i : Z) : Z :=
  if (i <? 0)%Z then Z.max (len + i) 0 else Z.min i len.

Definition slice (s : str) (a b : Z) : str :=
  let len := Z.of_nat (length s) in
  let from := clampIndex len a in
  let to := clampIndex len b in
  firstn (Z.to_nat (Z.max (to - from) 0)) (skipn (Z.to_nat from) s).

(** [s.slice(a)] *)
Definition sliceFrom (s : str) (a : Z) : str :=
  slice s a (Z.of_nat (length s)).

Fixpoint str_eqb (a b : str) : bool :=
  match a, b with
  | [], [] => true
  | x :: a', y :: b' => ascii_eqb x y && str_eqb a' b'
  | _, _ => false
  end.

(** [s.endsWith(c)] for a one-character string [c]. *)
Definition endsWith (s : str) (c : ascii) : bool :=
  match rev s with
  | d :: _ => ascii_eqb d c
  | [] => false
  end.

(** [s.split('\n')] *)
Definition newline : ascii := "010"%char.

Fixpoint split_lines_aux (cur : str) (s : str) : list str :=
  match s with
  | [] => [rev cur]
  | c :: s' =>
      if ascii_eqb c newline then rev cur :: split_lines_aux [] s'
      else split_lines_aux (c :: cur) s'
  end.

Definition split_lines (s : str) : list str := split_lines_aux [] s.

(** [lines.join('\n')] *)
Fixpoint join_lines (ls : list str) : str :=
  match ls with
  | [] => []
  | [l] => l
  | l :: ls' => l ++ newline :: join_lines ls'
  end.

End JS.

(** ** Regular expressions

    The fragment of ECMAScript patterns that the source uses: characters,
    [.], [\s], sequence, alternation, greedy [*] and [?] (also written
    [{0,1}]), groups, and [^] under the [m] flag.  The matcher is the
    backtracking matcher of the language definition: alternatives are tried
    left to right, quantifiers are greedy, and an iteration of a quantifier
    that consumes nothing is rejected. *)

Module Regex.

Import JS.

Inductive re : Type :=
| Chr (c : ascii)          (* a pattern character, or an escaped one: [\|] [\[] [\]] *)
| Dot                      (* [.] *)
| Space                    (* [\s] *)
| Bol                      (* [^] with the [m] flag *)
| Eps                      (* the empty pattern *)
| Seq (r1 r2 : re)         (* [r1r2] *)
| Alt (r1 r2 : re)         (* [r1|r2] *)
| Star (r : re)            (* [r*] *)
| Opt (r : re).            (* [r?], [r{0,1}] *)
Arguments Chr c%_char.

(** Line terminators: LF, CR (the two below 256). *)
Definition is_line_terminator (c : ascii) : bool :=
  let n := nat_of_ascii c in (n =? 10) || (n =? 13).

(** White space and line terminators, as [\s] takes them: TAB, LF, VT, FF,
    CR, SP, NBSP. *)
Definition is_space (c : ascii) : bool :=
  let n := nat_of_ascii c in
  (n =? 9) || (n =? 10) || (n =? 11) || (n =? 12) || (n =? 13) || (n =? 32)
  || (n =? 160).

(** Matching runs over a zipper: [l] is the input already passed, nearest
    character first, and [s] is the input still ahead. *)
Definition at_line_start (l : str) : bool :=
  match l with
  | [] => true
  | c :: _ => is_line_terminator c
  end.

Definition cont (A : Type) := str -> str -> option A.

Section Matcher.
Variable A : Type.

Fixpoint repeat_greedy (step : str -> str -> cont A -> option A)
    (fuel : nat) (l s : str) (k : cont A) : option A :=
  match fuel with
  | O => k l s
  | S fuel' =>
      match step l s (fun l' s' =>
               if length s' <? length s
               then repeat_greedy step fuel' l' s' k
               else None) with
      | Some x => Some x
      | None => k l s
      end
  end.

Fixpoint run (r : re) (l s : str) (k : cont A) : option A :=
  match r with
  | Chr c =>
      match s with
      | d :: s' => if ascii_eqb d c then k (d :: l) s' else None
      | [] => None
      end
  | Dot =>
      match s with
      | d :: s' => if is_line_terminator d then None else k (d :: l) s'
      | [] => None
      end
  | Space =>
      match s with
      | d :: s' => if is_space d then k (d :: l) s' else None
      | [] => None
      end
  | Bol => if at_line_start l then k l s else None
  | Eps => k l s
  | Seq r1 r2 => run r1 l s (fun l' s' => run r2 l' s' k)
  | Alt r1 r2 =>
      match run r1 l s k with
      | Some x => Some x
      | None => run r2 l s k
      end
  | Star r1 => repeat_greedy (run r1) (length s) l s k
  | Opt r1 =>
      match run r1 l s (fun l' s' =>
               if length s' <? length s then k l' s' else None) with
      | Some x => Some x
      | None => k l s
      end
  end.

End Matcher.

(** A match: the text before it, the matched text, the text after it. *)
Record found : Type := Found { before : str; matched : str; after : str }.

Definition index (f : found) : nat := length (before f).
Definition lastIndex (f : found) : nat := length (before f) + length (matched f).

(** One attempt at the position of the zipper [(l, s)]. *)
Definition match_here (r : re) (l s : str) : option found :=
  run r l s (fun l' s' =>
    Some (Found (rev l) (rev (firstn (length l' - length l) l')) s')).

(** The leftmost match at or after the position of the zipper. *)
Fixpoint search_from (r : re) (l s : str) : option found :=
  match match_here r l s with
  | Some f => Some f
  | None =>
      match s with
      | [] => None
      | c :: s' => search_from r (c :: l) s'
      end
  end.

(** [r.exec(s)] without the [g] flag, [s.match(r)], [s.search(r)]. *)
Definition exec (r : re) (s : str) : option found := search_from r [] s.

(** The pattern of a string of plain characters. *)
Fixpoint literal (s : str) : re :=
  match s with
  | [] => Eps
  | c :: s' => Seq (Chr c) (literal s')
  end.

(** The [while ((match = r.exec(line)) !== null)] loop of a [g] pattern:
    every [exec] starts at the [lastIndex] the one before left.  A match
    that is empty leaves [lastIndex] where it was, and the loop never ends:
    [None]. *)
Fixpoint exec_loop (r : re) (fuel : nat) (l s : str) : option (list found) :=
  match fuel with
  | O => None
  | S fuel' =>
      match search_from r l s with
      | None => Some []
      | Some f =>
          match exec_loop r fuel' (rev (matched f) ++ rev (before f)) (after f) with
          | Some fs => Some (f :: fs)
          | None => None
          end
      end
  end.

Definition exec_all (r : re) (s : str) : option (list found) :=
  exec_loop r (S (length s)) [] s.

(** The replacement text of [s.replace(r, t)]: [$$] stands for a dollar sign,
    [$&] for the match, [$`] for the text before it and [$'] for the text
    after it.  ([$1] to [$99] stand for capture groups, which [run] does not
    record: they are left as they are, which is what a pattern without
    groups does with them.) *)
Fixpoint substitute (t : str) (f : found) : str :=
  match t with
  | [] => []
  | c :: t' =>
      if ascii_eqb c "$" then
        match t' with
        | d :: t'' =>
            if ascii_eqb d "$" then "$"%char :: substitute t'' f
            else if ascii_eqb d "&" then matched f ++ substitute t'' f
            else if ascii_eqb d "`" then before f ++ substitute t'' f
            else if ascii_eqb d "'" then after f ++ substitute t'' f
            else c :: substitute t' f
        | [] => [c]
        end
      else c :: substitute t' f
  end.

(** [s.replace(r, t)] for a pattern without the [g] flag: the first match is
    replaced. *)
Definition replace (r : re) (s t : str) : str :=
  match exec r s with
  | Some f => before f ++ substitute t f ++ after f
  | None => s
  end.

(** [new RegExp(src)] for a source text made of plain characters and [.];
    [None] for a source text with any other syntax character in it, which
    this development does not interpret. *)
Definition syntax_character (c : ascii) : bool :=
  existsb (ascii_eqb c) (lit "^$\.*+?()[]{}|").

Definition atom_of (c : ascii) : option re :=
  if ascii_eqb c "." then Some Dot
  else if syntax_character c then None
  else Some (Chr c).

Fixpoint RegExp (src : str) : option re :=
  match src with
  | [] => Some Eps
  | c :: src' =>
      match atom_of c, RegExp src' with
      | Some a, Some r => Some (Seq a r)
      | _, _ => None
      end
  end.

End Regex.

(** ** The host: editor, vault and random source

    The editor, the vault and [crypto.randomUUID] belong to the host
    application.  They are modelled by the part of their contract that the
    plugin relies on. *)

Module Host.

Import JS.

Record EditorPosition : Type := Pos { line : nat; ch : Z }.

(** A selected range as the editor keeps it: two offsets into the text. *)
Record Range : Type := Rng { anchor : nat; head : nat }.

Definition range_from (r : Range) : nat := Nat.min (anchor r) (head r).
Definition range_to (r : Range) : nat := Nat.max (anchor r) (head r).

Record Editor : Type := MkEditor { value : str; selections : list Range }.

Record World : Type := MkWorld {
  editor : Editor;        (* the active editor *)
  entropy : nat -> N;     (* the random bits behind the n-th call of crypto.randomUUID *)
  draws : nat;            (* how many calls of crypto.randomUUID there have been *)
  vault : list str        (* the texts handed to vault.modify, latest first *)
}.

(** *** Positions and offsets *)

Fixpoint line_offset (ls : list str) (n : nat) : nat :=
  match n, ls with
  | S n', l :: ls' => S (length l) + line_offset ls' n'
  | _, _ => 0
  end.

Definition clip (c : Z) (len : nat) : nat :=
  Z.to_nat (Z.max 0 (Z.min c (Z.of_nat len))).

(** A position is clipped to its line, and a line past the end to the end
    of the text. *)
Definition posToOffset (text : str) (p : EditorPosition) : nat :=
  let ls := split_lines text in
  if line p <? length ls
  then line_offset ls (line p) + clip (ch p) (length (nth (line p) ls []))
  else length text.

Fixpoint offsetToPos_lines (ls : list str) (lineNo off : nat) : EditorPosition :=
  match ls with
  | [] => Pos lineNo 0
  | [l] => Pos lineNo (Z.of_nat (Nat.min off (length l)))
  | l :: ls' =>
      if off <=? length l then Pos lineNo (Z.of_nat off)
      else offsetToPos_lines ls' (S lineNo) (off - S (length l))
  end.

Definition offsetToPos (text : str) (off : nat) : EditorPosition :=
  offsetToPos_lines (split_lines text) 0 off.

(** *** Text between two offsets, and replacing ranges *)

Definition sub (s : str) (a b : nat) : str := firstn (b - a) (skipn a s).

(** [splice s at edits]: the text of [s] from offset [at] on, with every
    edit [(from, to, t)] carried out: the text between [from] and [to] gives
    way to [t].  The edits are in document order and do not overlap. *)
Fixpoint splice (s : str) (at_ : nat) (edits : list (nat * nat * str)) : str :=
  match edits with
  | [] => skipn at_ s
  | (from, to, t) :: edits' => sub s at_ from ++ t ++ splice s to edits'
  end.

(** The carets that the replacements leave behind, one after each new text. *)
Fixpoint carets_after (shift : Z) (t : str) (rs : list Range) : list Range :=
  match rs with
  | [] => []
  | r :: rs' =>
      let shift' := (shift + Z.of_nat (length t)
                     - (Z.of_nat (range_to r) - Z.of_nat (range_from r)))%Z in
      let c := Z.to_nat (Z.of_nat (range_to r) + shift') in
      Rng c c :: carets_after shift' t rs'
  end.

(** *** The editor interface *)

Definition getValue (e : Editor) : str := value e.

(** [setValue] leaves the cursor at the start of the text. *)
Definition setValue (t : str) (e : Editor) : Editor :=
  MkEditor t [Rng 0 0].

Definition getLine (n : nat) (e : Editor) : str :=
  nth n (split_lines (value e)) [].

(** The main selection is the last one. *)
Definition getCursor_anchor (e : Editor) : EditorPosition :=
  offsetToPos (value e) (anchor (last (selections e) (Rng 0 0))).

Definition setSelection (a h : EditorPosition) (e : Editor) : Editor :=
  MkEditor (value e) [Rng (posToOffset (value e) a) (posToOffset (value e) h)].

(** [setSelections]: the selection of the editor always has at least one
    range, and an empty list of ranges is refused with a [RangeError]
    (a selection needs at least one range): [None].  Nothing of the editor
    has changed at that point.  The editor keeps its ranges in document
    order; the plugin only ever passes ranges that are in that order already
    and do not overlap ([SpanOffsets.scanned_spans_ordered]), so the ranges
    are kept as they come. *)
Definition setSelections (rs : list (EditorPosition * EditorPosition))
    (e : Editor) : option Editor :=
  match rs with
  | [] => None
  | _ => Some (MkEditor (value e)
                 (map (fun r => Rng (posToOffset (value e) (fst r))
                                    (posToOffset (value e) (snd r))) rs))
  end.

(** [replaceSelection]: every selected range gives way to the text. *)
Definition replaceSelection (t : str) (e : Editor) : Editor :=
  MkEditor
    (splice (value e) 0
       (map (fun r => (range_from r, range_to r, t)) (selections e)))
    (carets_after 0 t (selections e)).

Definition getSelection (e : Editor) : str :=
  let r := last (selections e) (Rng 0 0) in
  sub (value e) (range_from r) (range_to r).

(** *** crypto.randomUUID

    A version 4 identifier: 32 hexadecimal digits in groups of 8, 4, 4, 4 and
    12, of which digit 12 is [4] and digit 16 is one of [8 9 a b]; the other
    122 bits are random. *)

Definition hex_digit (n : N) : ascii :=
  nth (N.to_nat n) (lit "0123456789abcdef") "0"%char.

Definition uuid_nibble (bits : N) (i : nat) : N :=
  let raw := N.land (N.shiftr bits (4 * N.of_nat (31 - i))) 15 in
  if i =? 12 then 4%N
  else if i =? 16 then N.lor 8 (N.land raw 3)
  else raw.

Definition uuid_digits (bits : N) (start len : nat) : str :=
  map (fun i => hex_digit (uuid_nibble bits i)) (seq start len).

Definition uuid_text (bits : N) : str :=
  uuid_digits bits 0 8 ++ "-"%char :: uuid_digits bits 8 4
  ++ "-"%char :: uuid_digits bits 12 4 ++ "-"%char :: uuid_digits bits 16 4
  ++ "-"%char :: uuid_digits bits 20 12.

End Host.

(** ** Runs of the plugin

    A method of the plugin runs in a world and returns, is cut short by an
    exception of the host, or gives no answer: it does not come to an end
    within the steps allowed, or leaves what this development interprets. *)

Module Run.

Import Host.

Inductive Outcome (A : Type) : Type :=
| Returned (a : A) (w : World)
| Thrown (w : World)
| Stuck.
Arguments Thrown {A} w.
Arguments Stuck {A}.

Definition M (A : Type) : Type := World -> Outcome A.

Definition ret {A} (a : A) : M A := fun w => Returned a w.

Definition bind {A B} (c : M A) (k : A -> M B) : M B :=
  fun w =>
    match c w with
    | Returned a w' => k a w'
    | Thrown w' => Thrown w'
    | Stuck => Stuck
    end.

Definition stuck {A} : M A := fun _ => Stuck.

Definition throw {A} : M A := fun w => Thrown w.

Definition get_editor : M Editor := fun w => Returned (editor w) w.

Definition put_editor (e : Editor) : M unit :=
  fun w => Returned tt (MkWorld e (entropy w) (draws w) (vault w)).

Definition randomUUID : M JS.str :=
  fun w =>
    Returned (uuid_text (entropy w (draws w)))
             (MkWorld (editor w) (entropy w) (S (draws w)) (vault w)).

Definition vault_modify (page : JS.str) : M unit :=
  fun w => Returned tt (MkWorld (editor w) (entropy w) (draws w) (page :: vault w)).

(** The world a run leaves behind, when it leaves one. *)
Definition world_after {A} (o : Outcome A) : option World :=
  match o with
  | Returned _ w => Some w
  | Thrown w => Some w
  | Stuck => None
  end.

Declare Scope run_scope.
Delimit Scope run_scope with run.
Notation "x <- c ;; k" := (bind c (fun x => k))
  (at level 61, c at next level, right associativity) : run_scope.
Notation "c ;;; k" := (bind c (fun _ => k))
  (at level 61, right associativity) : run_scope.

(** [Array.from({ length: n }, () => c)] *)
Fixpoint times {A} (n : nat) (c : M A) : M (list A) :=
  match n with
  | O => ret []
  | S n' => (x <- c ;; xs <- times n' c ;; ret (x :: xs))%run
  end.

End Run.

(** ** The plugin: [TableCheckboxesPlugin] *)

Module Plugin.

Import JS Regex Host Run.
Local Open Scope run_scope.

Local Infix "+++" := Seq (at level 60, right associativity).

Definition dquote : ascii := "034"%char.

(** The text of a rendered control:
    [<input type=?checkbox? (un)checked id=?ID?>], with a double quote for
    every [?]. *)
Definition control_head : str :=
  lit "<input type=" ++ dquote :: lit "checkbox" ++ dquote :: lit " ".
Definition control_mid : str := lit "checked id=" ++ [dquote].
Definition control_tail : str := dquote :: lit ">".

Definition control (isChecked : bool) (id : str) : str :=
  control_head ++ (if isChecked then [] else lit "un")
  ++ control_mid ++ id ++ control_tail.

(** *** Patterns *)

(** [/^(\s|>)*\|.*-\s?(?:\[\s?\]|\[).*/m] *)
Definition tableRegex : re :=
  Bol +++ Star (Alt Space (Chr ">")) +++ Chr "|" +++ Star Dot +++ Chr "-"
  +++ Opt Space +++ Alt (Chr "[" +++ Opt Space +++ Chr "]") (Chr "[")
  +++ Star Dot.

(** [/-\s{0,1}\[\s{0,1}\]?/], the [checkboxRegex] of [getCheckboxLength] *)
Definition checkboxRegex : re :=
  Chr "-" +++ Opt Space +++ Chr "[" +++ Opt Space +++ Opt (Chr "]").

(** [/-\s{0,1}\[\s{0,1}\]/g], the [checkboxRegex] of
    [getCheckboxesToConvert] *)
Definition checkboxRegex_g : re :=
  Chr "-" +++ Opt Space +++ Chr "[" +++ Opt Space +++ Chr "]".

Definition PLACEHOLDER : str := lit "!!PLACEHOLDER_TO_BE_REPLACED_WITH_CHECKBOX!!".

(** [/!!PLACEHOLDER_TO_BE_REPLACED_WITH_CHECKBOX!!/] *)
Definition placeholderRegex : re := literal PLACEHOLDER.

(** [new RegExp(`<input type=?checkbox? (un)?checked id=?${checkboxId}?>`)]:
    the pattern of the identifier stands between the plain characters around
    it; [None] when the identifier is beyond what [RegExp] interprets. *)
Definition controlRegex (checkboxId : str) : option re :=
  match RegExp checkboxId with
  | Some r =>
      Some (literal control_head +++ Opt (literal (lit "un"))
            +++ literal control_mid +++ r +++ literal control_tail)
  | None => None
  end.

(** *** The token matcher *)

Definition isMDCheckboxInTable (rowValue : str) : bool :=
  match exec tableRegex rowValue with
  | Some _ => true
  | None => false
  end.

Definition closingBracketIsTooFar (rowValue : str) (ch : Z) : bool :=
  if charIs rowValue (ch - 1) "[" || charIs rowValue (ch - 2) "["
  then false
  else true.

Definition getCheckboxLength (viewData : str) (ch : Z) : option str :=
  let completeCheckbox := charIs viewData ch "]" in
  let areaToCheck :=
    slice viewData (ch - 4) (if completeCheckbox then ch + 1 else ch) in
  match exec checkboxRegex areaToCheck with
  | None => None
  | Some checkboxMatch => Some (matched checkboxMatch)
  end.

(** *** The identifier generator *)

(** [page.search(id) !== -1]: [search] makes a pattern of the string it is
    given. *)
Definition idExistsInFile (id page : str) : option bool :=
  match RegExp id with
  | Some r =>
      match exec r page with
      | Some _ => Some true
      | None => Some false
      end
  | None => None
  end.

(** The [while] loop of [generateUniqueCheckboxId], for at most [fuel]
    rounds. *)
Fixpoint generate_loop (fuel : nat) (id page : str) : M str :=
  match idExistsInFile id page with
  | None => stuck
  | Some false => ret id
  | Some true =>
      match fuel with
      | O => stuck
      | S fuel' => id' <- randomUUID ;; generate_loop fuel' id' page
      end
  end.

Definition generateUniqueCheckboxId (fuel : nat) (page : str) : M str :=
  u <- randomUUID ;;
  generate_loop fuel (sliceFrom u (-6)) page.

(** *** The single-checkbox converter *)

(** The two ends of the selection that [handleCheckboxReplacement] makes. *)
Definition selection_ends (location : EditorPosition) (checkbox : str)
  : EditorPosition * EditorPosition :=
  let completeCheckbox := endsWith checkbox "]" in
  let location' :=
    Pos (line location) (if completeCheckbox then ch location + 1 else ch location) in
  let start := Pos (line location') (ch location' - Z.of_nat (length checkbox)) in
  (start, location').

Definition handleCheckboxReplacement (fuel : nat)
    (location : EditorPosition) (checkbox : str) : M unit :=
  let (start, location') := selection_ends location checkbox in
  e <- get_editor ;;
  put_editor (setSelection start location' e) ;;;
  e <- get_editor ;;
  checkboxId <- generateUniqueCheckboxId fuel (getValue e) ;;
  e <- get_editor ;;
  put_editor (replaceSelection (control false checkboxId) e).

(** The listener of [input] events; [data] is the text typed. *)
Definition onInput (fuel : nat) (data : str) : M unit :=
  if negb (str_eqb data (lit "]")) then ret tt
  else
    e <- get_editor ;;
    let location := getCursor_anchor e in
    let rowValue := getLine (line location) e in
    if negb (isMDCheckboxInTable rowValue)
       || closingBracketIsTooFar rowValue (ch location)
    then ret tt
    else
      match getCheckboxLength rowValue (ch location) with
      | None => ret tt
      | Some [] => ret tt
      | Some checkbox => handleCheckboxReplacement fuel location checkbox
      end.

(** *** The toggle synchronizer *)

(** The file is the one of the active editor; [vault.modify] is called
    whether or not the pattern was found. *)
Definition toggleCheckbox (page : str) (isChecked : bool) (checkboxId : str)
  : M unit :=
  match controlRegex checkboxId with
  | None => stuck
  | Some r =>
      let page' := replace r page (control isChecked checkboxId) in
      vault_modify page'
  end.

(** *** The bulk converter *)

Definition Span : Type := (EditorPosition * EditorPosition)%type.

Definition span_of (lineCount : nat) (f : found) : Span :=
  (Pos lineCount (Z.of_nat (index f)),
   Pos lineCount (Z.of_nat (index f + length (matched f)))).

(** The [for] loop of [getCheckboxesToConvert] over the lines that are
    left; [None] if the scan of a line does not come to an end. *)
Fixpoint scan_lines (convertOutsideTables : bool) (lines : list str)
    (lineCount : nat) : option (list Span) :=
  match lines with
  | [] => Some []
  | line :: lines' =>
      if negb convertOutsideTables && negb (isMDCheckboxInTable line)
      then scan_lines convertOutsideTables lines' (S lineCount)
      else
        match exec_all checkboxRegex_g line,
              scan_lines convertOutsideTables lines' (S lineCount) with
        | Some ms, Some rest => Some (map (span_of lineCount) ms ++ rest)
        | _, _ => None
        end
  end.

Definition getCheckboxesToConvert (page : str) (convertOutsideTables : bool)
  : option (list Span) :=
  scan_lines convertOutsideTables (split_lines page) 0.

(** All identifiers are drawn first, every one against the text as it is
    before any replacement.  A span [{ from, to }] becomes the selection
    [{ anchor: from, head: to }]. *)
Definition convertCheckboxes (fuel : nat) (checkboxes : list Span) : M unit :=
  checkboxIds <- times (length checkboxes)
                   (e <- get_editor ;; generateUniqueCheckboxId fuel (getValue e)) ;;
  let selections := checkboxes in
  e <- get_editor ;;
  match setSelections selections e with
  | None => throw
  | Some e' =>
      put_editor e' ;;;
      e <- get_editor ;;
      put_editor (replaceSelection PLACEHOLDER e) ;;;
      e <- get_editor ;;
      let page :=
        fold_left (fun page id => replace placeholderRegex page (control false id))
                  checkboxIds (getValue e) in
      put_editor (setValue page e)
  end.

Definition convertAllCheckboxes (fuel : nat) (convertOutsideTables : bool)
  : M unit :=
  e <- get_editor ;;
  let page := getValue e in
  match getCheckboxesToConvert page convertOutsideTables with
  | None => stuck
  | Some checkboxes => convertCheckboxes fuel checkboxes
  end.

End Plugin.

Unset Implicit Arguments.

(** * Properties *)

(** ** What the matcher finds

    [Matches r l w]: the pattern [r] matches the text [w] when the text
    passed before it is [l] (nearest character first). *)

Module RegexFacts.

Import JS Regex.

Inductive Matches : re -> str -> str -> Prop :=
| MChr c l : Matches (Chr c) l [c]
| MDot c l : is_line_terminator c = false -> Matches Dot l [c]
| MSpace c l : is_space c = true -> Matches Space l [c]
| MBol l : at_line_start l = true -> Matches Bol l []
| MEps l : Matches Eps l []
| MSeq r1 r2 l w1 w2 :
    Matches r1 l w1 -> Matches r2 (rev w1 ++ l) w2 ->
    Matches (Seq r1 r2) l (w1 ++ w2)
| MAltL r1 r2 l w : Matches r1 l w -> Matches (Alt r1 r2) l w
| MAltR r1 r2 l w : Matches r2 l w -> Matches (Alt r1 r2) l w
| MStar0 r l : Matches (Star r) l []
| MStarS r l w1 w2 :
    Matches r l w1 -> w1 <> [] -> Matches (Star r) (rev w1 ++ l) w2 ->
    Matches (Star r) l (w1 ++ w2)
| MOpt0 r l : Matches (Opt r) l []
| MOpt1 r l w : Matches r l w -> w <> [] -> Matches (Opt r) l w.

#[local] Hint Constructors Matches : core.

Lemma ascii_eqb_eq a b : ascii_eqb a b = true <-> a = b.
Proof. unfold ascii_eqb. apply Ascii.eqb_eq. Qed.

Lemma ascii_eqb_refl a : ascii_eqb a a = true.
Proof. apply ascii_eqb_eq. reflexivity. Qed.

Lemma ascii_eqb_neq a b : ascii_eqb a b = false <-> a <> b.
Proof.
  split; intros H.
  - intros E. apply ascii_eqb_eq in E. congruence.
  - destruct (ascii_eqb a b) eqn:E; [apply ascii_eqb_eq in E; contradiction | reflexivity].
Qed.

Lemma shorter_suffix (w s' : str) :
  (length s' <? length (w ++ s')) = true <-> w <> [].
Proof.
  rewrite Nat.ltb_lt, length_app. destruct w; simpl; split; intros; try lia; congruence.
Qed.

Section Soundness.
Variable A : Type.

Definition sound_step (r : re) (step : str -> str -> cont A -> option A) : Prop :=
  forall l s k x, step l s k = Some x ->
    exists w s', s = w ++ s' /\ Matches r l w /\ k (rev w ++ l) s' = Some x.

Lemma repeat_greedy_sound r step :
  sound_step r step ->
  forall fuel, sound_step (Star r) (repeat_greedy step fuel).
Proof.
  intros Hstep fuel. induction fuel as [|fuel IH]; intros l s k x H; simpl in H.
  - exists [], s. auto.
  - destruct (step l s _) as [y|] eqn:E.
    + injection H as ->. apply Hstep in E.
      destruct E as (w1 & s1 & -> & Hm & Hk).
      destruct (length s1 <? length (w1 ++ s1)) eqn:Hlt; [|discriminate].
      apply shorter_suffix in Hlt.
      apply IH in Hk. destruct Hk as (w2 & s2 & -> & Hm2 & Hk).
      exists (w1 ++ w2), s2. rewrite <- app_assoc. split; [reflexivity|].
      split; [eauto|]. now rewrite rev_app_distr, <- app_assoc.
    + exists [], s. auto.
Qed.

Lemma run_sound r : sound_step r (@run A r).
Proof.
  induction r; intros l s k x H; simpl in H.
  - destruct s as [|d s']; [discriminate|].
    destruct (ascii_eqb d c) eqn:E; [|discriminate].
    apply ascii_eqb_eq in E. subst d. exists [c], s'. auto.
  - destruct s as [|d s']; [discriminate|].
    destruct (is_line_terminator d) eqn:E; [discriminate|].
    exists [d], s'. auto.
  - destruct s as [|d s']; [discriminate|].
    destruct (is_space d) eqn:E; [|discriminate].
    exists [d], s'. auto.
  - destruct (at_line_start l) eqn:E; [|discriminate]. exists [], s. auto.
  - exists [], s. auto.
  - apply IHr1 in H. destruct H as (w1 & s1 & -> & Hm1 & H).
    apply IHr2 in H. destruct H as (w2 & s2 & -> & Hm2 & H).
    exists (w1 ++ w2), s2. rewrite <- app_assoc. split; [reflexivity|].
    split; [eauto|]. now rewrite rev_app_distr, <- app_assoc.
  - destruct (run r1 l s k) as [y|] eqn:E.
    + injection H as ->. apply IHr1 in E.
      destruct E as (w & s' & -> & Hm & Hk). exists w, s'. auto.
    + apply IHr2 in H. destruct H as (w & s' & -> & Hm & Hk). exists w, s'. auto.
  - apply (repeat_greedy_sound _ _ IHr) in H. exact H.
  - destruct (run r l s _) as [y|] eqn:E.
    + injection H as ->. apply IHr in E.
      destruct E as (w & s' & -> & Hm & Hk).
      destruct (length s' <? length (w ++ s')) eqn:Hlt; [|discriminate].
      apply shorter_suffix in Hlt. exists w, s'. auto.
    + exists [], s. auto.
Qed.

Definition complete_step (r : re) (step : str -> str -> cont A -> option A) : Prop :=
  forall l w, Matches r l w ->
    forall s' (k : cont A), k (rev w ++ l) s' <> None -> step l (w ++ s') k <> None.

Lemma repeat_greedy_complete r :
  complete_step r (@run A r) ->
  forall l w, Matches (Star r) l w ->
  forall fuel s' (k : cont A),
    length (w ++ s') <= fuel ->
    k (rev w ++ l) s' <> None ->
    repeat_greedy (@run A r) fuel l (w ++ s') k <> None.
Proof.
  intros Hstep l w Hm. remember (Star r) as sr eqn:Esr.
  induction Hm; try discriminate; injection Esr as ->; intros fuel s' k Hfuel Hk.
  - destruct fuel; simpl; [exact Hk|].
    destruct (run r l s' _); [discriminate | exact Hk].
  - destruct fuel as [|fuel].
    { rewrite length_app in Hfuel. destruct w1; [congruence | simpl in Hfuel; lia]. }
    simpl. rewrite <- app_assoc.
    match goal with |- context [run r l ?s ?k'] => destruct (run r l s k') eqn:E end;
      [discriminate|].
    exfalso. revert E. apply Hstep; [assumption|].
    replace (length (w2 ++ s') <? length (w1 ++ w2 ++ s')) with true
      by (symmetry; apply shorter_suffix; assumption).
    apply IHHm2; [reflexivity| |].
    + rewrite <- app_assoc, length_app in Hfuel.
      destruct w1; [congruence | simpl in Hfuel; lia].
    + now rewrite rev_app_distr, <- app_assoc in Hk.
Qed.

Lemma run_complete r : complete_step r (@run A r).
Proof.
  induction r; intros l w Hm s' k Hk; simpl.
  - inversion Hm; subst. simpl. rewrite ascii_eqb_refl. exact Hk.
  - inversion Hm as [|? ? Ht| | | | | | | | | |]; subst. simpl. rewrite Ht. exact Hk.
  - inversion Hm as [| |? ? Ht| | | | | | | | |]; subst. simpl. rewrite Ht. exact Hk.
  - inversion Hm as [| | |? Ht| | | | | | | |]; subst. simpl. rewrite Ht. exact Hk.
  - inversion Hm; subst. exact Hk.
  - inversion Hm as [| | | | |? ? ? w1 w2 H1 H2| | | | | |]; subst.
    rewrite <- app_assoc. apply IHr1; [assumption|].
    apply IHr2; [assumption|]. now rewrite rev_app_distr, <- app_assoc in Hk.
  - inversion Hm as [| | | | | |? ? ? ? H1|? ? ? ? H1| | | |]; subst.
    + specialize (IHr1 _ _ H1 _ _ Hk). destruct (run r1 l (w ++ s') k); congruence.
    + specialize (IHr2 _ _ H1 _ _ Hk). destruct (run r1 l (w ++ s') k); congruence.
  - apply repeat_greedy_complete; auto.
  - inversion Hm; subst.
    + simpl. destruct (run r l s' _); [discriminate | exact Hk].
    + match goal with |- context [run r l ?s ?k'] => destruct (run r l s k') eqn:E end;
        [discriminate|].
      exfalso. revert E. apply IHr; [assumption|].
      replace (length s' <? length (w ++ s')) with true
        by (symmetry; apply shorter_suffix; assumption).
      exact Hk.
Qed.

End Soundness.

(** *** One attempt, and the leftmost match *)

Lemma rev_firstn_passed (w l : str) :
  rev (firstn (length (rev w ++ l) - length l) (rev w ++ l)) = w.
Proof.
  rewrite length_app, Nat.add_sub, <- (Nat.add_0_r (length (rev w))).
  rewrite firstn_app_2. simpl. rewrite app_nil_r. apply rev_involutive.
Qed.

Lemma match_here_sound r l s f :
  match_here r l s = Some f ->
  before f = rev l /\ s = matched f ++ after f /\ Matches r l (matched f).
Proof.
  unfold match_here. intros H. apply run_sound in H.
  destruct H as (w & s' & -> & Hm & Hk). injection Hk as <-. simpl.
  rewrite rev_firstn_passed. auto.
Qed.

Lemma match_here_complete r l w t :
  Matches r l w -> match_here r l (w ++ t) <> None.
Proof.
  intros Hm. unfold match_here. apply run_complete; [assumption | discriminate].
Qed.

Lemma search_from_none r : forall s l,
  search_from r l s = None ->
  forall p w t, s = p ++ w ++ t -> ~ Matches r (rev p ++ l) w.
Proof.
  induction s as [|c s IH]; intros l H p w t E Hm; simpl in H.
  - destruct (match_here r l []) eqn:Eh; [discriminate|].
    symmetry in E. apply app_eq_nil in E. destruct E as [-> E].
    apply app_eq_nil in E. destruct E as [-> ->].
    simpl in Hm. revert Eh. change (@nil ascii) with ([] ++ @nil ascii) at 1.
    now apply match_here_complete.
  - destruct (match_here r l (c :: s)) eqn:Eh; [discriminate|].
    destruct p as [|d p]; simpl in *.
    + revert Eh. rewrite E. now apply match_here_complete.
    + injection E as <- E. apply (IH _ H p w t E).
      now rewrite <- app_assoc in Hm.
Qed.

Lemma search_from_sound r : forall s l f,
  search_from r l s = Some f ->
  exists p,
    before f = rev l ++ p /\ s = p ++ matched f ++ after f /\
    Matches r (rev p ++ l) (matched f) /\
    forall p1 w1 t1, s = p1 ++ w1 ++ t1 -> Matches r (rev p1 ++ l) w1 ->
      length p <= length p1.
Proof.
  induction s as [|c s IH]; intros l f H; simpl in H.
  - destruct (match_here r l []) eqn:Eh; [|discriminate].
    injection H as ->. apply match_here_sound in Eh. destruct Eh as (Hb & Hs & Hm).
    exists []. rewrite app_nil_r. simpl. repeat split; auto. intros; lia.
  - destruct (match_here r l (c :: s)) eqn:Eh.
    + injection H as ->. apply match_here_sound in Eh. destruct Eh as (Hb & Hs & Hm).
      exists []. rewrite app_nil_r. simpl. repeat split; auto. intros; lia.
    + apply IH in H. destruct H as (p & Hb & Hs & Hm & Hleft).
      exists (c :: p). simpl in Hb. rewrite <- app_assoc in Hb. simpl.
      rewrite <- app_assoc. simpl.
      repeat split; auto.
      * now rewrite <- Hs.
      * intros p1 w1 t1 E1 Hm1. destruct p1 as [|d p1]; simpl in *.
        -- exfalso. revert Eh. rewrite E1. now apply match_here_complete.
        -- injection E1 as <- E1. apply le_n_S. apply (Hleft p1 w1 t1 E1).
           now rewrite <- app_assoc in Hm1.
Qed.

(** *** Taking a match apart *)

Lemma matches_seq_inv r1 r2 l w :
  Matches (Seq r1 r2) l w ->
  exists w1 w2, w = w1 ++ w2 /\ Matches r1 l w1 /\ Matches r2 (rev w1 ++ l) w2.
Proof. intros H. inversion H; subst. eauto. Qed.

Lemma matches_opt_inv r l w :
  Matches (Opt r) l w -> w = [] \/ (Matches r l w /\ w <> []).
Proof. intros H. inversion H; subst; auto. Qed.

Lemma matches_chr_inv c l w : Matches (Chr c) l w -> w = [c].
Proof. intros H. now inversion H. Qed.

Lemma matches_space_inv l w :
  Matches Space l w -> exists c, w = [c] /\ is_space c = true.
Proof. intros H. inversion H; subst. eauto. Qed.

(** *** Occurrences of a text in a text *)

Definition occurs (x s : str) : Prop := exists a b, s = a ++ x ++ b.

Lemma literal_matches x l w : Matches (literal x) l w <-> w = x.
Proof.
  split.
  - revert l w. induction x as [|c x IH]; intros l w H; simpl in H.
    + now inversion H.
    + inversion H as [| | | | |? ? ? w1 w2 H1 H2| | | | | |]; subst.
      inversion H1; subst. simpl. f_equal. eapply IH; eauto.
  - intros ->. revert l. induction x as [|c x IH]; intros l; simpl.
    + constructor.
    + change (c :: x) with ([c] ++ x). constructor; [constructor | apply IH].
Qed.

Lemma exec_literal_none x s : exec (literal x) s = None <-> ~ occurs x s.
Proof.
  unfold exec. split.
  - intros H (a & b & E). eapply search_from_none; eauto. now apply literal_matches.
  - intros H. destruct (search_from (literal x) [] s) eqn:E; [|reflexivity].
    exfalso. apply search_from_sound in E.
    destruct E as (p & _ & Hs & Hm & _). apply literal_matches in Hm.
    apply H. exists p, (after f). now rewrite <- Hm.
Qed.

(** The first occurrence is the match of a literal pattern. *)
Lemma exec_literal_first x a b :
  (forall a' b', a ++ x ++ b = a' ++ x ++ b' -> length a <= length a') ->
  exec (literal x) (a ++ x ++ b) = Some (Found a x b).
Proof.
  intros Hfirst. unfold exec.
  destruct (search_from (literal x) [] (a ++ x ++ b)) eqn:E.
  - apply search_from_sound in E. destruct E as (p & Hb & Hs & Hm & Hleft).
    apply literal_matches in Hm. simpl in Hb. destruct f as [fb fm fa]. simpl in *.
    subst fb fm.
    assert (Hlen : length p = length a).
    { apply Nat.le_antisymm.
      - apply (Hleft a x b); [reflexivity|]. now apply literal_matches.
      - now apply (Hfirst p fa). }
    apply app_eq_app in Hs. f_equal.
    destruct Hs as (u & [[-> Hu] | [-> Hu]]);
      rewrite length_app in Hlen; destruct u; simpl in Hlen; try lia;
      rewrite ?app_nil_r in *; simpl in Hu.
    + apply app_inv_head in Hu. now subst.
    + apply app_inv_head in Hu. now subst.
  - exfalso. eapply search_from_none; eauto. now apply literal_matches.
Qed.

(** *** Plain source texts *)

Definition plain (c : ascii) : bool :=
  negb (ascii_eqb c ".") && negb (syntax_character c).

Lemma RegExp_plain x : forallb plain x = true -> RegExp x = Some (literal x).
Proof.
  induction x as [|c x IH]; simpl; intros H; [reflexivity|].
  apply andb_true_iff in H. destruct H as [Hc Hx]. rewrite (IH Hx).
  unfold atom_of, plain in *. apply andb_true_iff in Hc. destruct Hc as [H1 H2].
  apply negb_true_iff in H1, H2. now rewrite H1, H2.
Qed.

Lemma substitute_plain t f :
  forallb plain t = true -> substitute t f = t.
Proof.
  induction t as [|c t IH]; simpl; intros H; [reflexivity|].
  apply andb_true_iff in H. destruct H as [Hc Ht].
  assert (E : ascii_eqb c "$" = false).
  { apply ascii_eqb_neq. intros ->. discriminate. }
  rewrite E, (IH Ht). reflexivity.
Qed.

End RegexFacts.

(** ** The token matcher *)

Module TokenMatcher.

Import JS Regex RegexFacts Plugin.

Ltac invert_matches :=
  repeat match goal with
  | H : Matches (Seq _ _) _ _ |- _ => inversion H; clear H; subst
  | H : Matches (Alt _ _) _ _ |- _ => inversion H; clear H; subst
  | H : Matches (Opt _) _ _ |- _ => inversion H; clear H; subst
  | H : Matches (Chr _) _ _ |- _ => inversion H; clear H; subst
  | H : Matches Space _ _ |- _ => inversion H; clear H; subst
  | H : Matches Bol _ _ |- _ => inversion H; clear H; subst
  | H : Matches Eps _ _ |- _ => inversion H; clear H; subst
  end.

(** White space or a blockquote marker, as [(\s|>)] takes them. *)
Definition blank_or_quote (c : ascii) : bool := is_space c || ascii_eqb c ">".

Definition same_line (c : ascii) : bool := negb (is_line_terminator c).

(** The dash-bracket marker: a dash, at most one white space, an opening
    bracket. *)
Inductive marker : str -> Prop :=
| marker_tight : marker (lit "-[")
| marker_spaced c : is_space c = true -> marker ["-"%char; c; "["%char].

Lemma star_blank_or_quote pre : forall l,
  forallb blank_or_quote pre = true ->
  Matches (Star (Alt Space (Chr ">"))) l pre.
Proof.
  induction pre as [|c pre IH]; intros l H; simpl in H; [constructor|].
  apply andb_true_iff in H. destruct H as [Hc Hpre].
  change (c :: pre) with ([c] ++ pre). constructor; [|discriminate|now apply IH].
  unfold blank_or_quote in Hc. apply orb_true_iff in Hc. destruct Hc as [Hc|Hc].
  - apply MAltL. now constructor.
  - apply ascii_eqb_eq in Hc. subst c. apply MAltR. constructor.
Qed.

Lemma star_dot mid : forall l,
  forallb same_line mid = true -> Matches (Star Dot) l mid.
Proof.
  induction mid as [|c mid IH]; intros l H; simpl in H; [constructor|].
  apply andb_true_iff in H. destruct H as [Hc Hmid].
  change (c :: mid) with ([c] ++ mid). constructor; [|discriminate|now apply IH].
  constructor. unfold same_line in Hc. now apply negb_true_iff in Hc.
Qed.

Lemma marker_matches m l :
  marker m ->
  Matches (Seq (Chr "-") (Seq (Opt Space)
             (Alt (Seq (Chr "[") (Seq (Opt Space) (Chr "]"))) (Chr "[")))) l m.
Proof.
  intros [|c Hc].
  - change (lit "-[") with (["-"%char] ++ [] ++ ["["%char]).
    constructor; [constructor|]. constructor; [constructor|].
    apply MAltR. constructor.
  - change ["-"%char; c; "["%char] with (["-"%char] ++ [c] ++ ["["%char]).
    constructor; [constructor|]. constructor.
    + apply MOpt1; [now constructor | discriminate].
    + apply MAltR. constructor.
Qed.

Lemma table_row_matches pre mid m :
  forallb blank_or_quote pre = true ->
  forallb same_line mid = true ->
  marker m ->
  Matches tableRegex [] (pre ++ "|"%char :: mid ++ m).
Proof.
  intros Hpre Hmid Hm. unfold tableRegex.
  change (pre ++ "|"%char :: mid ++ m)
    with ([] ++ pre ++ ["|"%char] ++ mid ++ m).
  constructor; [now constructor|].
  constructor; [now apply star_blank_or_quote|].
  constructor; [constructor|].
  constructor; [now apply star_dot|].
  apply (marker_matches m (rev mid ++ rev ["|"%char] ++ rev pre ++ rev [] ++ [])) in Hm.
  inversion Hm as [| | | | |? ? ? w1 w2 H1 H2| | | | | |]; subst.
  constructor; [assumption|].
  inversion H2 as [| | | | |? ? ? w3 w4 H3 H4| | | | | |]; subst.
  constructor; [assumption|].
  rewrite <- (app_nil_r w4). constructor; [assumption | constructor].
Qed.

(** No pipe character stands before a marker of the line. *)
Definition no_pipe_before_marker (line : str) : Prop :=
  forall a m b, line = a ++ m ++ b -> marker m -> ~ In "|"%char a.

Lemma table_row_has_pipe_before_marker p w t :
  Matches tableRegex (rev p) w ->
  exists a m b, p ++ w ++ t = a ++ m ++ b /\ marker m /\ In "|"%char a.
Proof.
  unfold tableRegex. intros H.
  inversion H as [| | | | |? ? ? w0 x0 H0 G0| | | | | |]; subst; clear H.
  inversion G0 as [| | | | |? ? ? w1 x1 H1 G1| | | | | |]; subst; clear G0.
  inversion G1 as [| | | | |? ? ? w2 x2 H2 G2| | | | | |]; subst; clear G1.
  inversion G2 as [| | | | |? ? ? w3 x3 H3 G3| | | | | |]; subst; clear G2.
  inversion G3 as [| | | | |? ? ? w4 x4 H4 G4| | | | | |]; subst; clear G3.
  inversion G4 as [| | | | |? ? ? w5 x5 H5 G5| | | | | |]; subst; clear G4.
  inversion G5 as [| | | | |? ? ? w6 x6 H6 G6| | | | | |]; subst; clear G5.
  inversion H2; subst. inversion H4; subst. clear H0 H1 H3 H2 H4 G6.
  assert (Hopen : exists y, w6 = "["%char :: y).
  { inversion H6 as [| | | | | |? ? ? ? K|? ? ? ? K| | | |]; subst.
    - inversion K as [| | | | |? ? ? u1 u2 K1 K2| | | | | |]; subst.
      inversion K1; subst. eexists. reflexivity.
    - inversion K; subst. eexists. reflexivity. }
  destruct Hopen as (y & ->).
  assert (Hsp : w5 = [] \/ exists c, is_space c = true /\ w5 = [c]).
  { inversion H5 as [| | | | | | | | | |? ?|? ? ? K Kne]; subst; [now left|].
    inversion K; subst. right. eauto. }
  exists (p ++ w0 ++ w1 ++ ["|"%char] ++ w3), (["-"%char] ++ w5 ++ ["["%char]),
         (y ++ x6 ++ t).
  split; [|split].
  - repeat rewrite <- app_assoc. reflexivity.
  - destruct Hsp as [-> | (c & Hc & ->)]; simpl; [constructor | now constructor].
  - apply in_or_app. right. apply in_or_app. right. apply in_or_app. right.
    simpl. now left.
Qed.

(** C5 (table-context classification).  [isMDCheckboxInTable] answers
    [true] for a line that is white space and blockquote markers, then a
    pipe, then text that stays on the line, then a dash-bracket marker, then
    anything; and it answers [false] for a line in which no pipe stands
    before a marker. *)
Theorem isMDCheckboxInTable_table_context (pre mid m rest line : str) :
  (forallb blank_or_quote pre = true ->
   forallb same_line mid = true ->
   marker m ->
   isMDCheckboxInTable (pre ++ "|"%char :: mid ++ m ++ rest) = true)
  /\
  (no_pipe_before_marker line -> isMDCheckboxInTable line = false).
Proof.
  split.
  - intros Hpre Hmid Hm. unfold isMDCheckboxInTable, exec.
    destruct (search_from tableRegex [] _) eqn:E; [reflexivity|].
    exfalso. apply (search_from_none _ _ _ E [] (pre ++ "|"%char :: mid ++ m) rest).
    + simpl. rewrite <- app_assoc. simpl. now rewrite <- app_assoc.
    + simpl. now apply table_row_matches.
  - intros Hno. unfold isMDCheckboxInTable, exec.
    destruct (search_from tableRegex [] line) eqn:E; [|reflexivity].
    exfalso. apply search_from_sound in E.
    destruct E as (p & _ & Hs & Hm & _). rewrite app_nil_r in Hm.
    destruct (table_row_has_pipe_before_marker _ _ (after f) Hm) as (a & m' & b & E & Hmk & Hin).
    rewrite <- Hs in E. exact (Hno a m' b E Hmk Hin).
Qed.

(** A check that decides [no_pipe_before_marker]. *)
Definition marker_here (s : str) : bool :=
  match s with
  | d :: c :: s' =>
      ascii_eqb d "-"
      && (ascii_eqb c "["
          || (is_space c && match s' with e :: _ => ascii_eqb e "[" | [] => false end))
  | _ => false
  end.

Fixpoint pipe_then_marker (seen : bool) (s : str) : bool :=
  match s with
  | [] => false
  | c :: s' =>
      (seen && marker_here s) || pipe_then_marker (seen || ascii_eqb c "|") s'
  end.

Lemma marker_here_marker m b : marker m -> marker_here (m ++ b) = true.
Proof.
  intros [|c Hc]; simpl; [reflexivity|].
  rewrite Hc. simpl. apply orb_true_r.
Qed.

Lemma pipe_then_marker_none : forall s seen,
  pipe_then_marker seen s = false ->
  forall a m b, s = a ++ m ++ b -> marker m ->
    seen = true \/ In "|"%char a -> False.
Proof.
  induction s as [|c s IH]; intros seen H a m b E Hm Hseen.
  - symmetry in E. apply app_eq_nil in E. destruct E as [_ E].
    apply app_eq_nil in E. destruct E as [-> _]. inversion Hm.
  - cbn [pipe_then_marker] in H. apply orb_false_iff in H. destruct H as [H1 H2].
    destruct a as [|d a]; simpl in E.
    + destruct Hseen as [-> | []]. rewrite E, marker_here_marker in H1 by assumption.
      discriminate.
    + injection E as <- E. apply (IH _ H2 a m b E Hm).
      destruct Hseen as [-> | [<- | Hin]]; auto.
      left. rewrite ascii_eqb_refl. apply orb_true_r.
Qed.

Lemma no_pipe_before_marker_by_check line :
  pipe_then_marker false line = false -> no_pipe_before_marker line.
Proof.
  intros H a m b E Hm Hin. apply (pipe_then_marker_none _ _ H a m b E Hm). now right.
Qed.

Lemma isMDCheckboxInTable_table_context_witness :
  isMDCheckboxInTable (lit " > " ++ "|"%char :: lit " a | " ++ lit "- [" ++ lit " ] |") = true
  /\ isMDCheckboxInTable (lit "- [ ] | x") = false.
Proof.
  destruct (isMDCheckboxInTable_table_context
              (lit " > ") (lit " a | ") (lit "- [") (lit " ] |") (lit "- [ ] | x"))
    as [H1 H2].
  split.
  - apply H1; [reflexivity | reflexivity | now apply marker_spaced].
  - apply H2. apply no_pipe_before_marker_by_check. reflexivity.
Defined.

End TokenMatcher.

(** ** The identifier generator *)

Module IdentifierGenerator.

Import JS Regex RegexFacts Host Run Plugin.

Lemma forallb_firstn {A} (p : A -> bool) n : forall s,
  forallb p s = true -> forallb p (firstn n s) = true.
Proof.
  induction n as [|n IH]; intros [|c s] H; simpl in *; auto.
  apply andb_true_iff in H. destruct H as [Hc Hs]. now rewrite Hc, IH.
Qed.

Lemma forallb_skipn {A} (p : A -> bool) n : forall s,
  forallb p s = true -> forallb p (skipn n s) = true.
Proof.
  induction n as [|n IH]; intros [|c s] H; simpl in *; auto.
  apply andb_true_iff in H. destruct H as [Hc Hs]. now apply IH.
Qed.

Lemma slice_plain s a b : forallb plain s = true -> forallb plain (slice s a b) = true.
Proof. intros H. unfold slice. now apply forallb_firstn, forallb_skipn. Qed.

(** The characters of an identifier that the generator issues. *)
Definition id_char (c : ascii) : bool :=
  existsb (ascii_eqb c) (lit "0123456789abcdef-").

Lemma id_char_in c : id_char c = true <-> In c (lit "0123456789abcdef-").
Proof.
  unfold id_char. rewrite existsb_exists. split.
  - intros (d & Hd & E). apply ascii_eqb_eq in E. now subst.
  - intros H. exists c. split; [assumption | apply ascii_eqb_refl].
Qed.

Lemma id_char_plain c : id_char c = true -> plain c = true.
Proof.
  intros H. apply id_char_in in H.
  assert (Hall : forallb plain (lit "0123456789abcdef-") = true) by reflexivity.
  rewrite forallb_forall in Hall. now apply Hall.
Qed.

Lemma id_chars_plain id : forallb id_char id = true -> forallb plain id = true.
Proof.
  rewrite !forallb_forall. intros H c Hc. apply id_char_plain. now apply H.
Qed.

Lemma slice_id_chars s a b :
  forallb id_char s = true -> forallb id_char (slice s a b) = true.
Proof. intros H. unfold slice. now apply forallb_firstn, forallb_skipn. Qed.

Lemma hex_digit_id_char n : id_char (hex_digit n) = true.
Proof.
  unfold hex_digit. apply id_char_in.
  destruct (nth_in_or_default (N.to_nat n) (lit "0123456789abcdef") "0"%char) as [Hin | ->].
  - change (lit "0123456789abcdef-") with (lit "0123456789abcdef" ++ lit "-").
    apply in_or_app. now left.
  - now left.
Qed.

Lemma uuid_digits_id_chars bits start len :
  forallb id_char (uuid_digits bits start len) = true.
Proof.
  unfold uuid_digits. apply forallb_forall. intros c Hc.
  apply in_map_iff in Hc. destruct Hc as (i & <- & _). apply hex_digit_id_char.
Qed.

Lemma forallb_dash_cons s :
  forallb id_char s = true -> forallb id_char ("-"%char :: s) = true.
Proof. intros H. cbn [forallb]. rewrite H. reflexivity. Qed.

Lemma uuid_text_id_chars bits : forallb id_char (uuid_text bits) = true.
Proof.
  unfold uuid_text.
  repeat (rewrite forallb_app, uuid_digits_id_chars; apply forallb_dash_cons).
  apply uuid_digits_id_chars.
Qed.

(** For an identifier of plain characters, [idExistsInFile] is the search
    for the identifier as a piece of the text. *)
Lemma idExistsInFile_plain id page :
  forallb plain id = true ->
  (occurs id page -> idExistsInFile id page = Some true) /\
  (~ occurs id page -> idExistsInFile id page = Some false).
Proof.
  intros Hp. unfold idExistsInFile. rewrite (RegExp_plain _ Hp).
  destruct (exec (literal id) page) eqn:E; split; intros H; try reflexivity.
  - exfalso. assert (E' : exec (literal id) page = None) by now apply exec_literal_none.
    congruence.
  - exfalso. apply exec_literal_none in E. contradiction.
Qed.

Lemma occurs_dec_plain id page :
  forallb plain id = true -> occurs id page \/ ~ occurs id page.
Proof.
  intros _. destruct (exec (literal id) page) eqn:E.
  - left. apply search_from_sound in E. destruct E as (p & _ & Hs & Hm & _).
    apply literal_matches in Hm. exists p, (after f). now rewrite <- Hm.
  - right. now apply exec_literal_none.
Qed.

Definition with_draws (w : World) (d : nat) : World :=
  MkWorld (editor w) (entropy w) d (vault w).

(** The candidates of the loop that is entered with the identifier [id]
    when [d] identifiers have been drawn. *)
Definition loop_candidate (w : World) (d : nat) (id : str) (n : nat) : str :=
  match n with
  | O => id
  | S n' => uuid_text (entropy w (d + n'))
  end.

#[local] Opaque uuid_text slice.

Lemma generate_loop_returns page w : forall n d id,
  forallb id_char id = true ->
  ~ occurs (loop_candidate w d id n) page ->
  exists id' d',
    ~ occurs id' page /\ forallb id_char id' = true /\ d <= d' /\
    forall fuel, n <= fuel ->
      generate_loop fuel id page (with_draws w d) = Returned id' (with_draws w d').
Proof.
  induction n as [|n IH]; intros d id Hc Hfresh;
    pose proof (id_chars_plain _ Hc) as Hp.
  - simpl in Hfresh. exists id, d. repeat split; auto.
    intros fuel _. destruct fuel; simpl;
      now rewrite (proj2 (idExistsInFile_plain id page Hp) Hfresh).
  - destruct (occurs_dec_plain id page Hp) as [Hocc | Hnocc].
    + destruct (IH (S d) (uuid_text (entropy w d)) (uuid_text_id_chars _))
        as (id' & d' & H1 & H2 & H3 & H4).
      { destruct n as [|m]; cbn [loop_candidate] in *.
        - now rewrite Nat.add_0_r in Hfresh.
        - now rewrite Nat.add_succ_r in Hfresh. }
      exists id', d'. repeat split; auto; [lia|].
      intros fuel Hfuel. destruct fuel as [|fuel]; [lia|]. simpl.
      rewrite (proj1 (idExistsInFile_plain id page Hp) Hocc).
      unfold bind, randomUUID. simpl. apply H4. lia.
    + exists id, d. repeat split; auto.
      intros fuel _. destruct fuel; simpl;
        now rewrite (proj2 (idExistsInFile_plain id page Hp) Hnocc).
Qed.

(** The [n]-th candidate of a call of [generateUniqueCheckboxId] in the
    world [w]: the last six characters of the first identifier drawn, then
    the identifiers drawn after it, whole. *)
Definition candidate (w : World) (n : nat) : str :=
  match n with
  | O => sliceFrom (uuid_text (entropy w (draws w))) (-6)
  | S n' => uuid_text (entropy w (draws w + n))
  end.

Lemma with_draws_same w : with_draws w (draws w) = w.
Proof. now destruct w. Qed.

Lemma generate_returns page w n :
  ~ occurs (candidate w n) page ->
  exists id d',
    ~ occurs id page /\ forallb id_char id = true /\ draws w < d' /\
    forall fuel, n <= fuel ->
      generateUniqueCheckboxId fuel page w = Returned id (with_draws w d').
Proof.
  intros Hfresh.
  set (u := uuid_text (entropy w (draws w))).
  destruct (generate_loop_returns page w n (S (draws w)) (sliceFrom u (-6)))
    as (id & d' & H1 & H2 & H3 & H4).
  - apply slice_id_chars, uuid_text_id_chars.
  - destruct n as [|m]; cbn [loop_candidate candidate] in *; [exact Hfresh|].
    now rewrite Nat.add_succ_r in Hfresh.
  - exists id, d'. repeat split; auto.
Qed.

(** C6 (identifier generation).  Whatever the random source yields, if one
    of the candidates of a call does not occur in the document text, then
    the call comes to an end and returns an identifier that does not occur
    in the document text. *)
Theorem generateUniqueCheckboxId_terminates_fresh (page : str) (w : World) (n : nat) :
  ~ occurs (candidate w n) page ->
  exists id w',
    ~ occurs id page /\
    forall fuel, n <= fuel ->
      generateUniqueCheckboxId fuel page w = Returned id w'.
Proof.
  intros H. destruct (generate_returns page w n H) as (id & d' & H1 & _ & _ & H4).
  exists id, (with_draws w d'). auto.
Qed.

Lemma generateUniqueCheckboxId_terminates_fresh_witness :
  let page := lit "| abcdef -[] |" in
  let w := MkWorld (MkEditor page [Rng 0 0])
                   (fun n => (N.of_nat n * 16777216 + 11259375)%N) 0 [] in
  exists id w',
    ~ occurs id page /\
    forall fuel, 1 <= fuel ->
      generateUniqueCheckboxId fuel page w = Returned id w'.
Proof.
  intros page w. apply (generateUniqueCheckboxId_terminates_fresh page w 1).
  apply exec_literal_none. vm_compute. reflexivity.
Defined.

End IdentifierGenerator.

(** ** The toggle synchronizer *)

Module ToggleSynchronizer.

Import JS Regex RegexFacts Host Run Plugin.

Lemma control_plain isChecked id :
  forallb plain id = true -> forallb plain (control isChecked id) = true.
Proof.
  intros H. unfold control. rewrite !forallb_app, H. now destruct isChecked.
Qed.

Lemma controlRegex_plain id :
  forallb plain id = true ->
  controlRegex id =
    Some (Seq (literal control_head)
         (Seq (Opt (literal (lit "un")))
         (Seq (literal control_mid)
         (Seq (literal id) (literal control_tail))))).
Proof. intros H. unfold controlRegex. now rewrite (RegExp_plain _ H). Qed.

(** What the pattern of a plain identifier matches: the two texts of the
    control that carries the identifier, and nothing else. *)
Lemma controlRegex_matches id r l w :
  forallb plain id = true ->
  controlRegex id = Some r ->
  (Matches r l w <-> w = control true id \/ w = control false id).
Proof.
  intros Hp Hr. rewrite (controlRegex_plain _ Hp) in Hr.
  assert (Er : r = Seq (literal control_head)
         (Seq (Opt (literal (lit "un")))
         (Seq (literal control_mid)
         (Seq (literal id) (literal control_tail))))) by congruence.
  clear Hr. subst r.
  split.
  - intros H.
    apply matches_seq_inv in H. destruct H as (w0 & x0 & -> & H0 & H).
    apply matches_seq_inv in H. destruct H as (w1 & x1 & -> & H1 & H).
    apply matches_seq_inv in H. destruct H as (w2 & x2 & -> & H2 & H).
    apply matches_seq_inv in H. destruct H as (w3 & x3 & -> & H3 & H).
    apply literal_matches in H0, H2, H3, H. subst.
    apply matches_opt_inv in H1. destruct H1 as [-> | [K _]].
    + left. reflexivity.
    + apply literal_matches in K. subst. right. reflexivity.
  - intros [-> | ->]; unfold control.
    + constructor; [now apply literal_matches|].
      constructor; [apply MOpt0|].
      constructor; [now apply literal_matches|].
      constructor; now apply literal_matches.
    + constructor; [now apply literal_matches|].
      constructor; [apply MOpt1; [now apply literal_matches | discriminate]|].
      constructor; [now apply literal_matches|].
      constructor; now apply literal_matches.
Qed.

(** The document holds a control that carries the identifier. *)
Definition has_control (id page : str) : Prop :=
  occurs (control true id) page \/ occurs (control false id) page.

Definition written (page : str) (w : World) : World :=
  MkWorld (editor w) (entropy w) (draws w) (page :: vault w).

(** Without a control that carries the (plain) identifier, the text handed
    to the vault is the text that was read. *)
Lemma toggle_absent page isChecked id w :
  forallb plain id = true ->
  ~ has_control id page ->
  toggleCheckbox page isChecked id w = Returned tt (written page w).
Proof.
  intros Hp Hno. unfold toggleCheckbox.
  destruct (controlRegex id) as [r|] eqn:Er;
    [|rewrite (controlRegex_plain _ Hp) in Er; discriminate].
  unfold replace, exec. destruct (search_from r [] page) eqn:E; [|reflexivity].
  exfalso. apply search_from_sound in E. destruct E as (p & _ & Hs & Hm & _).
  apply (controlRegex_matches id r _ _ Hp Er) in Hm. apply Hno.
  destruct Hm as [Hm | Hm]; [left | right]; exists p, (after f); now rewrite <- Hm.
Qed.

(** With one, the first control that carries the (plain) identifier is
    rewritten, and the text before and after it is kept. *)
Lemma toggle_present page isChecked id w :
  forallb plain id = true ->
  has_control id page ->
  exists pre old post,
    page = pre ++ old ++ post /\
    (old = control true id \/ old = control false id) /\
    (forall pre' old' post',
        page = pre' ++ old' ++ post' ->
        old' = control true id \/ old' = control false id ->
        length pre <= length pre') /\
    toggleCheckbox page isChecked id w =
      Returned tt (written (pre ++ control isChecked id ++ post) w).
Proof.
  intros Hp Hhas. unfold toggleCheckbox.
  destruct (controlRegex id) as [r|] eqn:Er;
    [|rewrite (controlRegex_plain _ Hp) in Er; discriminate].
  unfold replace, exec. destruct (search_from r [] page) eqn:E.
  - pose proof (search_from_sound _ _ _ _ E) as (p & Hb & Hs & Hm & Hleft).
    simpl in Hb. exists p, (matched f), (after f).
    split; [exact Hs|]. split; [now apply (controlRegex_matches id r _ _ Hp Er) in Hm|].
    split.
    + intros pre' old' post' E' Hold. apply (Hleft pre' old' post' E').
      now apply (controlRegex_matches id r _ _ Hp Er).
    + rewrite Hb, substitute_plain by now apply control_plain. reflexivity.
  - exfalso. destruct Hhas as [(a & b & Hs) | (a & b & Hs)];
      apply (search_from_none _ _ _ E a _ b Hs);
      apply (controlRegex_matches id r _ _ Hp Er); auto.
Qed.

Lemma no_control_by_search id page :
  exec (literal (control true id)) page = None ->
  exec (literal (control false id)) page = None ->
  ~ has_control id page.
Proof.
  intros H1 H2 [H | H]; revert H; now apply exec_literal_none.
Qed.

(** C8, as the specification states it, fails: the document below holds no
    control at all, and a toggle still hands a text to the vault. *)
Lemma toggle_without_control_still_writes :
  let page := lit "| no control in this row |" in
  let id := lit "abc123" in
  let w := MkWorld (MkEditor page [Rng 0 0]) (fun _ => 0%N) 0 [] in
  ~ has_control id page /\
  ~ (forall w', world_after (toggleCheckbox page true id w) = Some w' ->
                vault w' = vault w).
Proof.
  split.
  - apply no_control_by_search; reflexivity.
  - intros H. specialize (H _ eq_refl). discriminate H.
Qed.

(** C8 (toggle without a match), amended.  If the document holds no control
    that carries the identifier, an identifier of plain characters, then the
    toggle hands the vault one text, and it is the text that was read: the
    persisted text stays as it is. *)
Theorem toggleCheckbox_without_control_writes_text_back
    (page : str) (isChecked : bool) (id : str) (w : World) :
  forallb plain id = true ->
  ~ has_control id page ->
  toggleCheckbox page isChecked id w = Returned tt (written page w) /\
  vault (written page w) = page :: vault w.
Proof.
  intros Hp Hno. split; [now apply toggle_absent | reflexivity].
Qed.

Lemma toggleCheckbox_without_control_writes_text_back_witness :
  let page := lit "| no control in this row |" in
  let w := MkWorld (MkEditor page [Rng 0 0]) (fun _ => 0%N) 0 [] in
  toggleCheckbox page true (lit "abc123") w = Returned tt (written page w) /\
  vault (written page w) = page :: vault w.
Proof.
  apply toggleCheckbox_without_control_writes_text_back.
  - reflexivity.
  - apply no_control_by_search; reflexivity.
Defined.

(** C7 (toggle rewrites the control of the identifier only) fails for an
    identifier with a pattern character in it.  The document holds a control
    [125] and then a control [1.5].  Toggling [1.5] rewrites the control
    [125], identifier and all, and leaves the control [1.5] as it was. *)
Theorem toggleCheckbox_pattern_identifier_rewrites_other_control (w : World) :
  let page := control false (lit "125") ++ lit " | " ++ control false (lit "1.5") in
  toggleCheckbox page true (lit "1.5") w =
    Returned tt
      (written (control true (lit "1.5") ++ lit " | " ++ control false (lit "1.5")) w).
Proof. reflexivity. Qed.

End ToggleSynchronizer.

(** ** The single-checkbox converter *)

Module SingleConverter.

Import JS Regex RegexFacts Host Run Plugin.

Definition row : str := lit "| a | - [ ] |".

(** C2, as the specification states it, fails: at the index just after the
    closing bracket, [getCheckboxLength] finds nothing. *)
Lemma getCheckboxLength_after_closing_bracket :
  charAt row 10 = Some "]"%char /\
  getCheckboxLength row 11 <> Some (lit "- [ ]") /\
  getCheckboxLength row 11 = None.
Proof. repeat split. discriminate. Qed.

(** C2 (span extraction), amended.  For the line [| a | - [ ] |] and the
    position of the closing bracket itself (the cursor stands just before
    it), [getCheckboxLength] returns the token [- [ ]], five characters
    long, and the token is complete. *)
Theorem getCheckboxLength_at_closing_bracket :
  charAt row 10 = Some "]"%char /\
  getCheckboxLength row 10 = Some (lit "- [ ]") /\
  length (lit "- [ ]") = 5 /\
  endsWith (lit "- [ ]") "]" = true.
Proof. repeat split. Qed.

(** There, the span that [handleCheckboxReplacement] selects is the token. *)
Lemma selection_at_closing_bracket :
  selection_ends (Pos 0 10) (lit "- [ ]") = (Pos 0 6, Pos 0 11) /\
  getSelection (setSelection (Pos 0 6) (Pos 0 11) (MkEditor row [Rng 10 10]))
    = lit "- [ ]".
Proof. split; reflexivity. Qed.

(** A random source: the identifiers it yields differ, and all end in
    [abcdef]. *)
Definition some_entropy (n : nat) : N := (N.of_nat n * 16777216 + 11259375)%N.

(** C3 (the span replaced is the token) fails when the token does not reach
    the cursor.  In the line [| - [x] with the cursor at its end, the
    conversion fires and the token found is [- []; the text selected and
    replaced is [ [x]. *)
Theorem handleCheckboxReplacement_selects_beside_token :
  let line := lit "| - [x" in
  let w := MkWorld (MkEditor line [Rng 6 6]) some_entropy 0 [] in
  getCursor_anchor (editor w) = Pos 0 6 /\
  isMDCheckboxInTable line = true /\
  closingBracketIsTooFar line 6 = false /\
  getCheckboxLength line 6 = Some (lit "- [") /\
  selection_ends (Pos 0 6) (lit "- [") = (Pos 0 3, Pos 0 6) /\
  getSelection (setSelection (Pos 0 3) (Pos 0 6) (editor w)) = lit " [x" /\
  option_map (fun w' => value (editor w')) (world_after (onInput 1 (lit "]") w))
    = Some (lit "| -" ++ control false (lit "abcdef")).
Proof. repeat split. Qed.

End SingleConverter.

(** ** The bulk converter: what the scan records *)

Module BulkScan.

Import JS Regex RegexFacts Host Run Plugin.

(** At most one white space. *)
Definition opt_space (sp : str) : Prop :=
  sp = [] \/ exists c, is_space c = true /\ sp = [c].

(** A complete checkbox token: a dash, at most one white space, an opening
    bracket, at most one white space, a closing bracket. *)
Inductive token : str -> Prop :=
| Token sp1 sp2 :
    opt_space sp1 -> opt_space sp2 ->
    token ("-"%char :: sp1 ++ "["%char :: sp2 ++ ["]"%char]).

Lemma opt_space_matches sp l : opt_space sp <-> Matches (Opt Space) l sp.
Proof.
  split.
  - intros [-> | (c & Hc & ->)]; [constructor|].
    apply MOpt1; [now constructor | discriminate].
  - intros H. apply matches_opt_inv in H. destruct H as [-> | [H _]]; [now left|].
    apply matches_space_inv in H. destruct H as (c & -> & Hc). right. eauto.
Qed.

Lemma checkboxRegex_g_matches l w : Matches checkboxRegex_g l w <-> token w.
Proof.
  unfold checkboxRegex_g. split.
  - intros H.
    apply matches_seq_inv in H. destruct H as (w0 & x0 & -> & H0 & H).
    apply matches_seq_inv in H. destruct H as (w1 & x1 & -> & H1 & H).
    apply matches_seq_inv in H. destruct H as (w2 & x2 & -> & H2 & H).
    apply matches_seq_inv in H. destruct H as (w3 & x3 & -> & H3 & H).
    apply matches_chr_inv in H0, H2, H. subst.
    apply opt_space_matches in H1, H3. simpl. now constructor.
  - intros [sp1 sp2 H1 H2].
    change ("-"%char :: sp1 ++ "["%char :: sp2 ++ ["]"%char])
      with (["-"%char] ++ sp1 ++ ["["%char] ++ sp2 ++ ["]"%char]).
    constructor; [constructor|].
    constructor; [now apply opt_space_matches|].
    constructor; [constructor|].
    constructor; [now apply opt_space_matches | constructor].
Qed.

Lemma token_nonempty w : token w -> w <> [].
Proof. intros [? ? _ _]. discriminate. Qed.

Lemma space_not_dash c : is_space c = true -> c <> "-"%char.
Proof. intros H ->. discriminate. Qed.

Lemma opt_space_no_dash sp : opt_space sp -> ~ In "-"%char sp.
Proof.
  intros [-> | (c & Hc & ->)] Hin; simpl in Hin; [contradiction|].
  destruct Hin as [E | []]. now apply (space_not_dash c).
Qed.

(** A token starts with its only dash. *)
Lemma token_dash w : token w -> exists k, w = "-"%char :: k /\ ~ In "-"%char k.
Proof.
  intros [sp1 sp2 H1 H2]. eexists. split; [reflexivity|].
  intros Hin. apply in_app_or in Hin. destruct Hin as [Hin | Hin].
  - now apply (opt_space_no_dash sp1).
  - destruct Hin as [E | Hin]; [discriminate|].
    apply in_app_or in Hin. destruct Hin as [Hin | Hin].
    + now apply (opt_space_no_dash sp2).
    + destruct Hin as [E | []]. discriminate.
Qed.

Lemma opt_space_det a1 a2 x r1 r2 :
  opt_space a1 -> opt_space a2 -> is_space x = false ->
  a1 ++ x :: r1 = a2 ++ x :: r2 -> a1 = a2 /\ r1 = r2.
Proof.
  intros [-> | (c1 & Hc1 & ->)] [-> | (c2 & Hc2 & ->)] Hx E; simpl in E.
  - injection E as E. auto.
  - injection E as E1 E2. subst. congruence.
  - injection E as E1 E2. subst. congruence.
  - injection E as E1 E2. subst. auto.
Qed.

(** Two tokens that start at the same place are the same token. *)
Lemma token_unique w1 w2 t1 t2 :
  token w1 -> token w2 -> w1 ++ t1 = w2 ++ t2 -> w1 = w2.
Proof.
  intros [a1 b1 Ha1 Hb1] [a2 b2 Ha2 Hb2] E. simpl in E. injection E as E.
  rewrite <- !app_assoc in E. simpl in E.
  apply opt_space_det in E; auto. destruct E as [-> E].
  rewrite <- !app_assoc in E. simpl in E.
  apply opt_space_det in E; auto. destruct E as [-> E].
  reflexivity.
Qed.

(** *** The loop over the matches of a line *)

(** Ranges in document order that do not overlap, from [at_] up to
    [bound]. *)
Fixpoint ordered (at_ : nat) (rs : list (nat * nat)) (bound : nat) : Prop :=
  match rs with
  | [] => at_ <= bound
  | (a, b) :: rs' => at_ <= a /\ a <= b /\ ordered b rs' bound
  end.

Definition extent (f : found) : nat * nat := (index f, lastIndex f).

Lemma exec_loop_ordered r : forall fuel l s fs,
  exec_loop r fuel l s = Some fs ->
  ordered (length l) (map extent fs) (length l + length s).
Proof.
  induction fuel as [|fuel IH]; intros l s fs H; simpl in H; [discriminate|].
  destruct (search_from r l s) as [f|] eqn:E.
  - destruct (exec_loop r fuel _ _) as [fs'|] eqn:E'; [|discriminate].
    injection H as <-. apply IH in E'.
    apply search_from_sound in E. destruct E as (p & Hb & Hs & _ & _).
    simpl. unfold index, lastIndex. rewrite Hb, length_app, length_rev.
    split; [lia|]. split; [lia|].
    rewrite length_app, !length_rev, Hb, length_app, length_rev in E'.
    rewrite Hs, !length_app.
    replace (length l + length p + length (matched f))
      with (length (matched f) + (length l + length p)) by lia.
    replace (length l + (length p + (length (matched f) + length (after f))))
      with (length (matched f) + (length l + length p) + length (after f)) by lia.
    exact E'.
  - injection H as <-. simpl. lia.
Qed.

Lemma exec_loop_sound r : forall fuel l s fs,
  exec_loop r fuel l s = Some fs ->
  forall f, In f fs ->
    before f ++ matched f ++ after f = rev l ++ s /\
    Matches r (rev (before f)) (matched f).
Proof.
  induction fuel as [|fuel IH]; intros l s fs H f Hin; simpl in H; [discriminate|].
  destruct (search_from r l s) as [f0|] eqn:E.
  - destruct (exec_loop r fuel _ _) as [fs'|] eqn:E'; [|discriminate].
    injection H as <-.
    apply search_from_sound in E. destruct E as (p & Hb & Hs & Hm & _).
    destruct Hin as [<- | Hin].
    + rewrite Hb, Hs, <- app_assoc. split; [reflexivity|].
      now rewrite rev_app_distr, rev_involutive.
    + destruct (IH _ _ _ E' f Hin) as [H1 H2]. split; [|exact H2].
      rewrite H1, rev_app_distr, !rev_involutive, Hb, Hs, <- !app_assoc.
      reflexivity.
  - injection H as <-. destruct Hin.
Qed.

Lemma exec_loop_total r :
  (forall l w, Matches r l w -> w <> []) ->
  forall fuel l s, length s < fuel -> exists fs, exec_loop r fuel l s = Some fs.
Proof.
  intros Hne. induction fuel as [|fuel IH]; intros l s Hlen; [lia|]. simpl.
  destruct (search_from r l s) as [f|] eqn:E; [|eauto].
  apply search_from_sound in E. destruct E as (p & _ & Hs & Hm & _).
  apply Hne in Hm.
  destruct (IH (rev (matched f) ++ rev (before f)) (after f)) as (fs & ->); [|eauto].
  rewrite Hs, !length_app in Hlen. destruct (matched f); [congruence|]. simpl in Hlen. lia.
Qed.

Lemma exec_loop_none r fuel l s :
  (forall p w t, s = p ++ w ++ t -> ~ Matches r (rev p ++ l) w) ->
  exec_loop r (S fuel) l s = Some [].
Proof.
  intros H. simpl. destruct (search_from r l s) as [f|] eqn:E; [|reflexivity].
  exfalso. apply search_from_sound in E. destruct E as (p & _ & Hs & Hm & _).
  exact (H _ _ _ Hs Hm).
Qed.

(** Every token of the line is among the matches of the loop. *)
Lemma exec_loop_finds_token : forall fuel l s fs p w t,
  exec_loop checkboxRegex_g fuel l s = Some fs ->
  s = p ++ w ++ t -> token w ->
  In (Found (rev l ++ p) w t) fs.
Proof.
  induction fuel as [|fuel IH]; intros l s fs p w t H Es Hw; simpl in H; [discriminate|].
  destruct (search_from checkboxRegex_g l s) as [f|] eqn:E.
  - destruct (exec_loop checkboxRegex_g fuel _ _) as [fs'|] eqn:E'; [|discriminate].
    injection H as <-.
    apply search_from_sound in E. destruct E as (p' & Hb & Hs & Hm & Hleft).
    apply checkboxRegex_g_matches in Hm.
    assert (Hle : length p' <= length p).
    { apply (Hleft p w t Es). now apply checkboxRegex_g_matches. }
    rewrite Es in Hs. apply app_eq_app in Hs.
    destruct Hs as (q & [[Hp Ht] | [Hp Ht]]).
    2:{ assert (q = []) by (rewrite Hp, length_app in Hle; destruct q; simpl in *; [auto | lia]).
        subst q. rewrite app_nil_r in Hp. subst p'. simpl in Ht.
        pose proof (token_unique _ _ _ _ Hw Hm Ht) as Ew.
        left. destruct f as [fb fm fa]. simpl in *. subst.
        apply app_inv_head in Ht. now subst. }
    destruct q as [|c q].
    { rewrite app_nil_r in Hp. subst p'. simpl in Ht. symmetry in Ht.
      pose proof (token_unique _ _ _ _ Hw Hm Ht) as Ew.
      left. destruct f as [fb fm fa]. simpl in *. subst.
      apply app_inv_head in Ht. now subst. }
    right. symmetry in Ht. apply app_eq_app in Ht.
    destruct Ht as (z & [[Hq Ha] | [Hq Ha]]).
    + specialize (IH _ _ _ z w t E' Ha Hw).
      rewrite rev_app_distr, !rev_involutive, Hb, Hp, Hq, <- !app_assoc in *.
      exact IH.
    + destruct z as [|d z].
      * rewrite app_nil_r in Hq. simpl in Ha.
        specialize (IH _ _ _ [] w t E' (eq_sym Ha) Hw).
        rewrite rev_app_distr, !rev_involutive, Hb, Hp, <- Hq, app_nil_r, <- !app_assoc in *.
        exact IH.
      * exfalso. apply token_dash in Hw, Hm.
        destruct Hw as (k & -> & _), Hm as (k' & Ek' & Hk').
        simpl in Ha. injection Ha as <- Ha.
        rewrite Hq in Ek'. simpl in Ek'. injection Ek' as -> <-.
        apply Hk'. apply in_or_app. right. now left.
  - exfalso. apply (search_from_none _ _ _ E p w t Es). now apply checkboxRegex_g_matches.
Qed.

Lemma exec_all_total line : exists fs, exec_all checkboxRegex_g line = Some fs.
Proof.
  unfold exec_all. apply exec_loop_total; [|lia].
  intros l w H. apply checkboxRegex_g_matches in H. now apply token_nonempty.
Qed.

(** *** The loop over the lines *)

Definition scanned (convertOutsideTables : bool) (line : str) : Prop :=
  convertOutsideTables = true \/ isMDCheckboxInTable line = true.

Lemma scan_lines_total flag : forall lines n,
  exists spans, scan_lines flag lines n = Some spans.
Proof.
  induction lines as [|line lines IH]; intros n; simpl; [eauto|].
  destruct (IH (S n)) as (rest & ->).
  destruct (negb flag && negb (isMDCheckboxInTable line)); [eauto|].
  destruct (exec_all_total line) as (fs & ->). eauto.
Qed.

Lemma scan_lines_sound flag : forall lines n spans sp,
  scan_lines flag lines n = Some spans -> In sp spans ->
  exists j line fs f,
    nth_error lines j = Some line /\ scanned flag line /\
    exec_all checkboxRegex_g line = Some fs /\ In f fs /\
    sp = span_of (n + j) f.
Proof.
  induction lines as [|line lines IH]; intros n spans sp H Hin; simpl in H.
  - injection H as <-. destruct Hin.
  - destruct (negb flag && negb (isMDCheckboxInTable line)) eqn:Eskip.
    + destruct (IH _ _ _ H Hin) as (j & l' & fs & f & H1 & H2 & H3 & H4 & H5).
      exists (S j), l', fs, f. rewrite Nat.add_succ_r. auto.
    + destruct (exec_all checkboxRegex_g line) as [ms|] eqn:Ems; [|discriminate].
      destruct (scan_lines flag lines (S n)) as [rest|] eqn:Erest; [|discriminate].
      injection H as <-. apply in_app_or in Hin. destruct Hin as [Hin | Hin].
      * apply in_map_iff in Hin. destruct Hin as (f & <- & Hf).
        exists 0, line, ms, f. rewrite Nat.add_0_r. repeat split; auto.
        unfold scanned. apply andb_false_iff in Eskip.
        destruct Eskip as [E | E]; apply negb_false_iff in E; auto.
      * destruct (IH _ _ _ Erest Hin) as (j & l' & fs & f & H1 & H2 & H3 & H4 & H5).
        exists (S j), l', fs, f. rewrite Nat.add_succ_r. auto.
Qed.

Lemma scan_lines_complete flag : forall lines n spans j line fs f,
  scan_lines flag lines n = Some spans ->
  nth_error lines j = Some line -> scanned flag line ->
  exec_all checkboxRegex_g line = Some fs -> In f fs ->
  In (span_of (n + j) f) spans.
Proof.
  induction lines as [|l0 lines IH]; intros n spans j line fs f H Hj Hsc Hfs Hf;
    simpl in H.
  - destruct j; discriminate.
  - destruct j as [|j]; simpl in Hj.
    + injection Hj as ->. rewrite Nat.add_0_r.
      assert (Eskip : negb flag && negb (isMDCheckboxInTable line) = false).
      { destruct Hsc as [-> | ->]; [reflexivity | apply andb_false_r]. }
      rewrite Eskip, Hfs in H.
      destruct (scan_lines flag lines (S n)) as [rest|]; [|discriminate].
      injection H as <-. apply in_or_app. left. now apply in_map.
    + rewrite Nat.add_succ_r.
      destruct (negb flag && negb (isMDCheckboxInTable l0)).
      * exact (IH _ _ _ _ _ _ H Hj Hsc Hfs Hf).
      * destruct (exec_all checkboxRegex_g l0) as [ms|]; [|discriminate].
        destruct (scan_lines flag lines (S n)) as [rest|] eqn:Erest; [|discriminate].
        injection H as <-. apply in_or_app. right.
        exact (IH _ _ _ _ _ _ Erest Hj Hsc Hfs Hf).
Qed.

(** *** No raw token, no span *)

Definition token_free (line : str) : Prop :=
  forall a w b, line = a ++ w ++ b -> ~ token w.

Definition raw_token_free (page : str) : Prop :=
  forall line, In line (split_lines page) -> token_free line.

Lemma token_free_by_search line :
  exec checkboxRegex_g line = None -> token_free line.
Proof.
  intros H a w b E Hw. apply (search_from_none _ _ _ H a w b E).
  now apply checkboxRegex_g_matches.
Qed.

Lemma scan_lines_token_free flag : forall lines n,
  (forall line, In line lines -> token_free line) ->
  scan_lines flag lines n = Some [].
Proof.
  induction lines as [|line lines IH]; intros n H; simpl; [reflexivity|].
  rewrite IH by (intros; apply H; now right).
  destruct (negb flag && negb (isMDCheckboxInTable line)); [reflexivity|].
  unfold exec_all. rewrite exec_loop_none; [reflexivity|].
  intros p w t E Hm. apply checkboxRegex_g_matches in Hm.
  exact (H line (or_introl eq_refl) _ _ _ E Hm).
Qed.

(** C4 (idempotence).  In a document in which no raw checkbox token is left,
    a bulk conversion records no span, whatever the policy, and leaves the
    world as it found it: the pass ends where the editor refuses an empty
    list of selections, before any text is replaced. *)
Theorem convertAllCheckboxes_second_pass (w : World) (flag : bool) (fuel : nat) :
  raw_token_free (value (editor w)) ->
  getCheckboxesToConvert (value (editor w)) flag = Some [] /\
  convertAllCheckboxes fuel flag w = Thrown w /\
  option_map (fun w' => value (editor w')) (world_after (convertAllCheckboxes fuel flag w))
    = Some (value (editor w)).
Proof.
  intros H.
  assert (E : getCheckboxesToConvert (value (editor w)) flag = Some [])
    by now apply scan_lines_token_free.
  assert (E' : convertAllCheckboxes fuel flag w = Thrown w).
  { unfold convertAllCheckboxes, bind, get_editor, getValue. now rewrite E. }
  now rewrite E'.
Qed.

(** C9 (the policy of bulk conversion).  Take a complete checkbox token on
    line [i] of the document.  With the flag off, if the line is not a
    table-context line, no span of line [i] is recorded for conversion; with
    the flag on, the span of the token is recorded, table context or not. *)
Theorem getCheckboxesToConvert_policy (page : str) (i : nat) (line a w b : str) :
  nth_error (split_lines page) i = Some line ->
  line = a ++ w ++ b ->
  token w ->
  (isMDCheckboxInTable line = false ->
   exists spans,
     getCheckboxesToConvert page false = Some spans /\
     forall sp, In sp spans -> Host.line (fst sp) <> i)
  /\
  (exists spans,
     getCheckboxesToConvert page true = Some spans /\
     In (Pos i (Z.of_nat (length a)), Pos i (Z.of_nat (length a + length w))) spans).
Proof.
  intros Hi Hline Hw. unfold getCheckboxesToConvert. split.
  - intros Hnot. destruct (scan_lines_total false (split_lines page) 0) as (spans & E).
    exists spans. split; [exact E|]. intros sp Hin Heq.
    destruct (scan_lines_sound _ _ _ _ _ E Hin) as (j & l' & fs & f & H1 & H2 & _ & _ & H5).
    subst sp. simpl in Heq. subst j. rewrite Hi in H1. injection H1 as <-.
    destruct H2 as [H2 | H2]; congruence.
  - destruct (scan_lines_total true (split_lines page) 0) as (spans & E).
    exists spans. split; [exact E|].
    destruct (exec_all_total line) as (fs & Efs).
    pose proof (exec_loop_finds_token _ _ _ _ a w b Efs Hline Hw) as Hf.
    apply (scan_lines_complete _ _ _ _ _ _ _ _ E Hi (or_introl eq_refl) Efs) in Hf.
    exact Hf.
Qed.

Lemma raw_token_free_by_search page :
  forallb (fun line => match exec checkboxRegex_g line with
                       | None => true
                       | Some _ => false
                       end) (split_lines page) = true ->
  raw_token_free page.
Proof.
  intros H line Hl. rewrite forallb_forall in H. specialize (H line Hl).
  apply token_free_by_search. destruct (exec checkboxRegex_g line); [discriminate | reflexivity].
Qed.

Lemma convertAllCheckboxes_second_pass_witness :
  let page := lit "| " ++ control false (lit "abcdef") ++ lit " |" in
  let w := MkWorld (MkEditor page [Rng 0 0]) (fun _ => 0%N) 1 [] in
  getCheckboxesToConvert (value (editor w)) false = Some [] /\
  convertAllCheckboxes 1 false w = Thrown w /\
  option_map (fun w' => value (editor w')) (world_after (convertAllCheckboxes 1 false w))
    = Some (value (editor w)).
Proof.
  intros page w. apply (convertAllCheckboxes_second_pass w false 1).
  apply raw_token_free_by_search. vm_compute. reflexivity.
Defined.

Lemma getCheckboxesToConvert_policy_witness :
  let page := lit "- [ ] free" in
  (isMDCheckboxInTable page = false ->
   exists spans,
     getCheckboxesToConvert page false = Some spans /\
     forall sp, In sp spans -> Host.line (fst sp) <> 0)
  /\
  (exists spans,
     getCheckboxesToConvert page true = Some spans /\
     In (Pos 0 (Z.of_nat (length (@nil ascii))),
         Pos 0 (Z.of_nat (length (@nil ascii) + length (lit "- [ ]")))) spans).
Proof.
  intros page.
  apply (getCheckboxesToConvert_policy page 0 page [] (lit "- [ ]") (lit " free")).
  - reflexivity.
  - reflexivity.
  - apply (Token [" "%char] [" "%char]); right; exists " "%char; split; reflexivity.
Defined.

End BulkScan.

(** ** The bulk converter: placeholders and their substitution *)

Module Placeholders.

Import JS Regex RegexFacts Host Run Plugin.

(** *** Occurrences and foreign characters *)

Lemma occurs_cons_inv x c s :
  occurs x (c :: s) ->
  x = [] \/ (exists x' b, x = c :: x' /\ s = x' ++ b) \/ occurs x s.
Proof.
  intros (a & b & E). destruct a as [|d a]; simpl in E.
  - destruct x as [|e x]; [now left|]. simpl in E. injection E as <- E.
    right. left. eauto.
  - injection E as <- E. right. right. exists a, b. exact E.
Qed.

Lemma occurs_cons x c s : occurs x s -> occurs x (c :: s).
Proof. intros (a & b & ->). now exists (c :: a), b. Qed.

Lemma occurs_app_l x u v : occurs x u -> occurs x (u ++ v).
Proof. intros (a & b & ->). exists a, (b ++ v). now rewrite <- !app_assoc. Qed.

Lemma occurs_app_r x u v : occurs x v -> occurs x (u ++ v).
Proof. intros (a & b & ->). exists (u ++ a), b. now rewrite <- !app_assoc. Qed.

Lemma occurs_trans x y z : occurs x y -> occurs y z -> occurs x z.
Proof.
  intros (a & b & ->) (a' & b' & ->). exists (a' ++ a), (b ++ b').
  now rewrite <- !app_assoc.
Qed.

Lemma occurs_sub s a b : occurs (sub s a b) s.
Proof.
  unfold sub. exists (firstn a s), (skipn (b - a) (skipn a s)).
  now rewrite firstn_skipn, firstn_skipn.
Qed.

(** A text of characters foreign to [x] in front: [x] can only occur
    after it. *)
Lemma occurs_after_foreign x c v :
  x <> [] -> (forall e, In e c -> ~ In e x) ->
  occurs x (c ++ v) -> occurs x v.
Proof.
  intros Hx. induction c as [|d c IH]; intros Hc H; simpl in H; [exact H|].
  apply occurs_cons_inv in H. destruct H as [-> | [(x' & b & -> & _) | H]].
  - contradiction.
  - exfalso. apply (Hc d); now left.
  - apply IH; [|exact H]. intros e He. apply Hc. now right.
Qed.

Lemma prefix_before_foreign (x : str) : forall (u : str) d v b,
  ~ In d x -> u ++ d :: v = x ++ b -> exists u2, u = x ++ u2.
Proof.
  induction x as [|e x IH]; intros u d v b Hd E; [now exists u|].
  destruct u as [|f u]; simpl in E; injection E as <- E.
  - exfalso. apply Hd. now left.
  - destruct (IH u d v b) as (u2 & ->); [|exact E|now exists u2].
    intros Hin. apply Hd. now right.
Qed.

(** A character foreign to [x] in the middle: [x] occurs before it or
    after it. *)
Lemma occurs_around_foreign (x : str) d : forall u v : str,
  ~ In d x -> occurs x (u ++ d :: v) -> occurs x u \/ occurs x v.
Proof.
  intros u v Hd. induction u as [|e u IH]; intros H; simpl in H.
  - apply occurs_cons_inv in H. destruct H as [-> | [(x' & b & -> & _) | H]].
    + left. now exists [], [].
    + exfalso. apply Hd. now left.
    + now right.
  - apply occurs_cons_inv in H. destruct H as [-> | [(x' & b & -> & E) | H]].
    + left. now exists [], (e :: u).
    + left. destruct (prefix_before_foreign x' u d v b) as (u2 & ->); [|exact E|].
      * intros Hin. apply Hd. now right.
      * now exists [], u2.
    + destruct (IH H) as [H' | H']; [left; now apply occurs_cons | now right].
Qed.

(** *** Texts at the end of a text *)

Definition ends_with (x s : str) : Prop := exists u, s = u ++ x.

Lemma ends_with_app x u v : ends_with x v -> ends_with x (u ++ v).
Proof. intros (u' & ->). exists (u ++ u'). now rewrite app_assoc. Qed.

Lemma ends_with_after_foreign (x : str) c : forall v : str,
  x <> [] -> (forall e, In e c -> ~ In e x) ->
  ends_with x (c ++ v) -> ends_with x v.
Proof.
  intros v Hx. induction c as [|d c IH]; intros Hc H; simpl in H; [exact H|].
  apply IH; [intros e He; apply Hc; now right|].
  destruct H as (u & E). destruct u as [|e u]; simpl in E.
  - exfalso. apply (Hc d); [now left|]. rewrite <- E. now left.
  - injection E as _ E. now exists u.
Qed.

Lemma ends_with_after_foreign_char (x : str) d : forall (u v : str),
  x <> [] -> ~ In d x -> ends_with x (u ++ d :: v) -> ends_with x v.
Proof.
  intros u v Hx Hd. induction u as [|e u IH]; intros (u' & E); simpl in E.
  - destruct u' as [|f u']; simpl in E.
    + exfalso. apply Hd. rewrite <- E. now left.
    + injection E as _ E. now exists u'.
  - destruct u' as [|f u']; simpl in E.
    + exfalso. apply Hd. rewrite <- E. right. apply in_or_app. right. now left.
    + injection E as _ E. apply IH. now exists u'.
Qed.

(** A decision of [ends_with]. *)
Definition ends_with_b (x s : str) : bool :=
  str_eqb (skipn (length s - length x) s) x.

Lemma str_eqb_refl s : str_eqb s s = true.
Proof. induction s as [|c s IH]; simpl; [reflexivity|]. now rewrite ascii_eqb_refl. Qed.

Lemma ends_with_b_complete x s : ends_with x s -> ends_with_b x s = true.
Proof.
  intros (u & ->). unfold ends_with_b. rewrite length_app, Nat.add_sub.
  rewrite skipn_app, skipn_all, Nat.sub_diag. simpl. apply str_eqb_refl.
Qed.

(** *** The placeholder *)

(** The placeholder without its last two characters, and without its last
    character. *)
Definition PLACEHOLDER_stem : str := lit "!!PLACEHOLDER_TO_BE_REPLACED_WITH_CHECKBOX".
Definition PLACEHOLDER_stem1 : str := lit "!!PLACEHOLDER_TO_BE_REPLACED_WITH_CHECKBOX!".

Lemma PLACEHOLDER_stem_end : PLACEHOLDER = PLACEHOLDER_stem ++ lit "!!".
Proof. reflexivity. Qed.

Lemma PLACEHOLDER_stem1_end : PLACEHOLDER = PLACEHOLDER_stem1 ++ lit "!".
Proof. reflexivity. Qed.

(** A text in which the placeholder does not occur, and which does not end
    where the placeholder could start: with the placeholder short of its
    last character or of its last two. *)
Definition clean (A : str) : Prop :=
  ~ occurs PLACEHOLDER A /\
  ~ ends_with PLACEHOLDER_stem A /\
  ~ ends_with PLACEHOLDER_stem1 A.

(** After a clean text, the placeholder put there is the first one. *)
Lemma placeholder_first A B a' b' :
  clean A ->
  A ++ PLACEHOLDER ++ B = a' ++ PLACEHOLDER ++ b' ->
  length A <= length a'.
Proof.
  intros (Hocc & Hstem & Hstem1) E.
  destruct (Nat.le_gt_cases (length A) (length a')) as [|Hlt]; [assumption|].
  exfalso. apply app_eq_app in E. destruct E as (u & [[HA E] | [Ha E]]).
  2:{ rewrite Ha, length_app in Hlt. lia. }
  destruct u as [|c u]; [rewrite HA, app_nil_r in Hlt; lia|].
  clear Hlt. unfold PLACEHOLDER in E. simpl in E. injection E as <- E.
  do 41 (destruct u as [|? u]; [exfalso; simpl in E; discriminate E|];
         simpl in E; injection E as <- E).
  destruct u as [|? u]; [apply Hstem; now exists a'|].
  simpl in E; injection E as <- E.
  destruct u as [|? u]; [apply Hstem1; now exists a'|].
  simpl in E; injection E as <- E.
  apply Hocc. now exists a', u.
Qed.

(** A text after which a clean text stays clean. *)
Definition closed (pre : str) : Prop := forall g, clean g -> clean (pre ++ g).

Definition foreign (c : str) : Prop := forall e, In e c -> ~ In e PLACEHOLDER.

Lemma closed_nil : closed [].
Proof. intros g H. exact H. Qed.

Lemma in_stem_placeholder e : In e PLACEHOLDER_stem -> In e PLACEHOLDER.
Proof. intros H. rewrite PLACEHOLDER_stem_end. apply in_or_app. now left. Qed.

Lemma in_stem1_placeholder e : In e PLACEHOLDER_stem1 -> In e PLACEHOLDER.
Proof. intros H. rewrite PLACEHOLDER_stem1_end. apply in_or_app. now left. Qed.

Lemma closed_step pre g c :
  closed pre -> clean g -> c <> [] -> foreign c ->
  closed (pre ++ g ++ c).
Proof.
  intros Hpre Hg Hc Hf g' (Hocc & Hstem & Hstem1). destruct c as [|d c]; [congruence|].
  replace ((pre ++ g ++ d :: c) ++ g') with ((pre ++ g) ++ d :: (c ++ g'))
    by (now rewrite <- !app_assoc).
  assert (Hd : ~ In d PLACEHOLDER) by (apply Hf; now left).
  assert (Hc' : forall e, In e c -> ~ In e PLACEHOLDER)
    by (intros e He; apply Hf; now right).
  destruct (Hpre g Hg) as (Hpg & _ & _).
  split; [|split]; intros H.
  - apply occurs_around_foreign in H; [|exact Hd].
    destruct H as [H | H]; [now apply Hpg|].
    apply Hocc. apply (occurs_after_foreign _ c); [discriminate | exact Hc' | exact H].
  - apply ends_with_after_foreign_char in H;
      [|discriminate | intros Hin; apply Hd; now apply in_stem_placeholder].
    apply Hstem. apply (ends_with_after_foreign _ c); [discriminate| |exact H].
    intros e He Hin. apply (Hc' e He). now apply in_stem_placeholder.
  - apply ends_with_after_foreign_char in H;
      [|discriminate | intros Hin; apply Hd; now apply in_stem1_placeholder].
    apply Hstem1. apply (ends_with_after_foreign _ c); [discriminate| |exact H].
    intros e He Hin. apply (Hc' e He). now apply in_stem1_placeholder.
Qed.

(** *** Filling the placeholders, one identifier after the other *)

Definition placeholder_edits (rs : list (nat * nat)) : list (nat * nat * str) :=
  map (fun r => (fst r, snd r, PLACEHOLDER)) rs.

Definition control_edits (rs : list (nat * nat)) (ids : list str)
  : list (nat * nat * str) :=
  map (fun p => (fst (fst p), snd (fst p), control false (snd p))) (combine rs ids).

Definition fill (page : str) (ids : list str) : str :=
  fold_left (fun page id => replace placeholderRegex page (control false id)) ids page.

Definition issued (id : str) : Prop :=
  forallb plain id = true /\ foreign (control false id).

Lemma replace_placeholder A B id :
  clean A -> forallb plain id = true ->
  replace placeholderRegex (A ++ PLACEHOLDER ++ B) (control false id)
  = A ++ control false id ++ B.
Proof.
  intros HA Hid. unfold replace, placeholderRegex.
  rewrite exec_literal_first.
  - cbn [before after]. rewrite substitute_plain; [reflexivity|].
    now apply ToggleSynchronizer.control_plain.
  - intros a' b' E. now apply (placeholder_first A B a' b').
Qed.

Lemma placeholder_edits_cons a b rs :
  placeholder_edits ((a, b) :: rs) = (a, b, PLACEHOLDER) :: placeholder_edits rs.
Proof. reflexivity. Qed.

Lemma control_edits_cons a b rs id ids :
  control_edits ((a, b) :: rs) (id :: ids)
  = (a, b, control false id) :: control_edits rs ids.
Proof. reflexivity. Qed.

Lemma splice_cons s at_ a b t es :
  splice s at_ ((a, b, t) :: es) = sub s at_ a ++ t ++ splice s b es.
Proof. reflexivity. Qed.

Lemma fill_cons page id ids :
  fill page (id :: ids) = fill (replace placeholderRegex page (control false id)) ids.
Proof. reflexivity. Qed.

(** The texts between the ranges, each up to the start of a range, are
    clean. *)
Fixpoint gaps_clean (page : str) (at_ : nat) (rs : list (nat * nat)) : Prop :=
  match rs with
  | [] => True
  | (a, b) :: rs' => clean (sub page at_ a) /\ gaps_clean page b rs'
  end.

Lemma fill_placeholders page :
  forall rs ids pre at_,
    length ids = length rs -> closed pre -> gaps_clean page at_ rs ->
    Forall issued ids ->
    fill (pre ++ splice page at_ (placeholder_edits rs)) ids
    = pre ++ splice page at_ (control_edits rs ids).
Proof.
  induction rs as [|[a b] rs IH]; intros ids pre at_ Hlen Hpre Hgaps Hids.
  - destruct ids; [reflexivity | discriminate].
  - destruct ids as [|id ids]; [discriminate|].
    inversion Hids as [|? ? [Hplain Hforeign] Hids']; subst.
    destruct Hgaps as [Hg Hgaps].
    rewrite placeholder_edits_cons, control_edits_cons, !splice_cons, fill_cons.
    replace (pre ++ sub page at_ a ++ PLACEHOLDER ++ splice page b (placeholder_edits rs))
      with ((pre ++ sub page at_ a) ++ PLACEHOLDER ++ splice page b (placeholder_edits rs))
      by (now rewrite <- app_assoc).
    rewrite replace_placeholder; [|now apply Hpre|assumption].
    replace ((pre ++ sub page at_ a) ++ control false id ++ splice page b (placeholder_edits rs))
      with ((pre ++ sub page at_ a ++ control false id) ++ splice page b (placeholder_edits rs))
      by (now rewrite <- !app_assoc).
    rewrite IH.
    + now rewrite <- !app_assoc.
    + simpl in Hlen. lia.
    + apply closed_step; auto. unfold control, control_head. discriminate.
    + assumption.
    + assumption.
Qed.

(** *** From the document to its gaps *)

Lemma firstn_sub : forall at_ a (s : str),
  at_ <= a -> firstn a s = firstn at_ s ++ sub s at_ a.
Proof.
  unfold sub. induction at_ as [|n IH]; intros a s H.
  - simpl. now rewrite Nat.sub_0_r.
  - destruct a as [|a]; [lia|]. destruct s as [|c s]; simpl.
    + now rewrite firstn_nil.
    + f_equal. apply IH. lia.
Qed.

(** The recorded range is not directly preceded by the placeholder short of
    its last character or of its last two. *)
Definition stem_before (page : str) (a : nat) : Prop :=
  ends_with PLACEHOLDER_stem (firstn a page) \/
  ends_with PLACEHOLDER_stem1 (firstn a page).

Lemma gaps_clean_of_page page :
  ~ occurs PLACEHOLDER page ->
  forall rs at_ bound,
    BulkScan.ordered at_ rs bound ->
    (forall r, In r rs -> ~ stem_before page (fst r)) ->
    gaps_clean page at_ rs.
Proof.
  intros Hpage. induction rs as [|[a b] rs IH]; intros at_ bound Ho Hrs; [exact I|].
  simpl in Ho. destruct Ho as (Hat & Hab & Ho). split.
  - split; [|split].
    + intros H. apply Hpage. eapply occurs_trans; [exact H | apply occurs_sub].
    + intros H. apply (Hrs (a, b)); [now left|]. left. simpl.
      rewrite (firstn_sub at_ a page Hat). now apply ends_with_app.
    + intros H. apply (Hrs (a, b)); [now left|]. right. simpl.
      rewrite (firstn_sub at_ a page Hat). now apply ends_with_app.
  - apply (IH b bound Ho). intros r Hr. apply Hrs. now right.
Qed.

End Placeholders.

(** ** The bulk converter: where the recorded spans lie *)

Module SpanOffsets.

Import JS Regex RegexFacts Host Run Plugin BulkScan.

(** *** Lines *)

Lemma split_lines_aux_nonempty s : forall cur, split_lines_aux cur s <> [].
Proof.
  induction s as [|c s IH]; intros cur; simpl; [discriminate|].
  destruct (ascii_eqb c newline); [discriminate | apply IH].
Qed.

Lemma join_lines_cons l ls :
  ls <> [] -> join_lines (l :: ls) = l ++ newline :: join_lines ls.
Proof. destruct ls; [congruence | reflexivity]. Qed.

Lemma join_split_aux s : forall cur,
  join_lines (split_lines_aux cur s) = rev cur ++ s.
Proof.
  induction s as [|c s IH]; intros cur; simpl.
  - now rewrite app_nil_r.
  - destruct (ascii_eqb c newline) eqn:E.
    + apply ascii_eqb_eq in E. subst c.
      rewrite join_lines_cons by apply split_lines_aux_nonempty.
      now rewrite IH.
    + rewrite IH. simpl. now rewrite <- app_assoc.
Qed.

Lemma join_split page : join_lines (split_lines page) = page.
Proof. unfold split_lines. now rewrite join_split_aux. Qed.

(** The line [j] of a text starts at [line_offset ls j]. *)
Lemma line_at : forall ls j line,
  nth_error ls j = Some line ->
  exists X Y, join_lines ls = X ++ line ++ Y /\ length X = line_offset ls j.
Proof.
  induction ls as [|l ls IH]; intros j line H; [destruct j; discriminate|].
  destruct j as [|j]; simpl in H.
  - injection H as ->. destruct ls as [|l' ls].
    + exists [], []. simpl. now rewrite app_nil_r.
    + exists [], (newline :: join_lines (l' :: ls)). split; [reflexivity|reflexivity].
  - destruct (IH j line H) as (X & Y & E & HX).
    assert (Hne : ls <> []) by (destruct ls; [destruct j; discriminate | discriminate]).
    exists (l ++ newline :: X), Y. rewrite join_lines_cons by assumption.
    rewrite E. split.
    + now rewrite <- app_assoc.
    + rewrite length_app. simpl. lia.
Qed.

Lemma sub_middle (X w Y : str) :
  sub (X ++ w ++ Y) (length X) (length X + length w) = w.
Proof.
  unfold sub. rewrite skipn_app, skipn_all, Nat.sub_diag. simpl.
  replace (length X + length w - length X) with (length w + 0) by lia.
  rewrite firstn_app_2. simpl. apply app_nil_r.
Qed.

(** *** Ranges in document order *)

Lemma ordered_le : forall rs a b, ordered a rs b -> a <= b.
Proof.
  induction rs as [|[x y] rs IH]; intros a b H; simpl in H; [exact H|].
  destruct H as (H1 & H2 & H3). apply IH in H3. lia.
Qed.

Lemma ordered_start : forall rs a a' b, a' <= a -> ordered a rs b -> ordered a' rs b.
Proof.
  intros [|[x y] rs] a a' b Hle H; simpl in *; [lia|].
  destruct H as (H1 & H2 & H3). repeat split; auto; lia.
Qed.

Lemma ordered_app : forall rs1 rs2 a m b,
  ordered a rs1 m -> ordered m rs2 b -> ordered a (rs1 ++ rs2) b.
Proof.
  induction rs1 as [|[x y] rs1 IH]; intros rs2 a m b H1 H2; simpl in *.
  - now apply (ordered_start rs2 m).
  - destruct H1 as (Ha & Hb & Hc). repeat split; auto. now apply (IH rs2 y m).
Qed.

Definition shift (k : nat) (r : nat * nat) : nat * nat := (k + fst r, k + snd r).

Lemma ordered_shift k : forall rs a b,
  ordered a rs b -> ordered (k + a) (map (shift k) rs) (k + b).
Proof.
  induction rs as [|[x y] rs IH]; intros a b H; simpl in *; [lia|].
  destruct H as (H1 & H2 & H3). repeat split; try lia. now apply IH.
Qed.

(** Putting the text of every range back leaves the text as it is: what
    [splice] keeps is what lies outside the ranges. *)
Lemma splice_own_text s : forall rs at_,
  ordered at_ rs (length s) ->
  splice s at_ (map (fun r => (fst r, snd r, sub s (fst r) (snd r))) rs) = skipn at_ s.
Proof.
  induction rs as [|[a b] rs IH]; intros at_ H; simpl in *; [reflexivity|].
  destruct H as (H1 & H2 & H3). rewrite IH by assumption. unfold sub.
  pose proof (ordered_le _ _ _ H3) as Hb.
  symmetry. etransitivity; [symmetry; apply (firstn_skipn (a - at_))|]. f_equal.
  rewrite skipn_skipn. replace (a - at_ + at_) with a by lia.
  etransitivity; [symmetry; apply (firstn_skipn (b - a))|]. f_equal.
  rewrite skipn_skipn. now replace (b - a + a) with b by lia.
Qed.

(** *** The offsets of a scan *)

Definition span_offsets (lines : list str) (n base : nat) (sp : Span) : nat * nat :=
  (base + line_offset lines (line (fst sp) - n) + Z.to_nat (ch (fst sp)),
   base + line_offset lines (line (snd sp) - n) + Z.to_nat (ch (snd sp))).

Lemma span_offsets_span_of lines n base f :
  span_offsets lines n base (span_of n f) = shift base (extent f).
Proof.
  unfold span_offsets, span_of, shift, extent, lastIndex, index. simpl.
  rewrite Nat.sub_diag, !Nat2Z.id. destruct lines; simpl; f_equal; lia.
Qed.

Lemma span_offsets_next l lines n base sp :
  S n <= line (fst sp) -> S n <= line (snd sp) ->
  span_offsets (l :: lines) n base sp
  = span_offsets lines (S n) (base + S (length l)) sp.
Proof.
  intros H1 H2. unfold span_offsets.
  replace (line (fst sp) - n) with (S (line (fst sp) - S n)) by lia.
  replace (line (snd sp) - n) with (S (line (snd sp) - S n)) by lia.
  simpl. f_equal; lia.
Qed.

Lemma scan_lines_line flag lines n spans sp :
  scan_lines flag lines n = Some spans -> In sp spans ->
  n <= line (fst sp) /\ n <= line (snd sp).
Proof.
  intros H Hin.
  destruct (scan_lines_sound _ _ _ _ _ H Hin) as (j & l' & fs & f & _ & _ & _ & _ & ->).
  simpl. lia.
Qed.

Lemma scan_lines_ordered flag : forall lines n base spans,
  scan_lines flag lines n = Some spans ->
  ordered base (map (span_offsets lines n base) spans)
          (base + length (join_lines lines)).
Proof.
  induction lines as [|l lines IH]; intros n base spans H.
  - simpl in H. injection H as <-. simpl. lia.
  - simpl in H.
    destruct (scan_lines flag lines (S n)) as [rest|] eqn:Erest.
    2:{ destruct (negb flag && negb (isMDCheckboxInTable l)); [discriminate|].
        destruct (exec_all checkboxRegex_g l); discriminate. }
    assert (Hrest : ordered (base + length l)
                      (map (span_offsets (l :: lines) n base) rest)
                      (base + length (join_lines (l :: lines)))).
    { destruct lines as [|l' lines].
      - simpl in Erest. injection Erest as <-. simpl. lia.
      - rewrite join_lines_cons by discriminate.
        rewrite (map_ext_in _ (span_offsets (l' :: lines) (S n) (base + S (length l)))).
        + apply (ordered_start _ (base + S (length l))); [lia|].
          specialize (IH (S n) (base + S (length l)) rest Erest).
          rewrite length_app. cbn [length].
          replace (base + (length l + S (length (join_lines (l' :: lines)))))
            with (base + S (length l) + length (join_lines (l' :: lines))) by lia.
          exact IH.
        + intros sp Hsp. destruct (scan_lines_line _ _ _ _ _ Erest Hsp).
          now apply span_offsets_next. }
    destruct (negb flag && negb (isMDCheckboxInTable l)).
    + injection H as <-. apply (ordered_start _ (base + length l)); [lia | exact Hrest].
    + destruct (exec_all checkboxRegex_g l) as [ms|] eqn:Ems; [|discriminate].
      injection H as <-. rewrite map_app, map_map.
      apply (ordered_app _ _ _ (base + length l)); [|exact Hrest].
      rewrite (map_ext _ (fun f => shift base (extent f)))
        by (intros; apply span_offsets_span_of).
      rewrite <- map_map. unfold exec_all in Ems.
      apply exec_loop_ordered in Ems. simpl in Ems.
      apply (ordered_shift base) in Ems. now rewrite Nat.add_0_r in Ems.
Qed.

(** *** The positions of the spans, as the editor reads them *)

Definition span_range (page : str) (sp : Span) : nat * nat :=
  (posToOffset page (fst sp), posToOffset page (snd sp)).

Lemma clip_in_line k len : k <= len -> clip (Z.of_nat k) len = k.
Proof. intros H. unfold clip. lia. Qed.

Lemma scanned_span page flag spans sp :
  getCheckboxesToConvert page flag = Some spans -> In sp spans ->
  span_range page sp = span_offsets (split_lines page) 0 0 sp /\
  token (sub page (fst (span_range page sp)) (snd (span_range page sp))).
Proof.
  unfold getCheckboxesToConvert. intros H Hin.
  destruct (scan_lines_sound _ _ _ _ _ H Hin)
    as (j & l & fs & f & Hj & _ & Hfs & Hf & ->).
  unfold exec_all in Hfs.
  destruct (exec_loop_sound _ _ _ _ _ Hfs f Hf) as [Hline Hm].
  simpl in Hline. apply checkboxRegex_g_matches in Hm.
  assert (Hlt : j < length (split_lines page)) by (apply nth_error_Some; congruence).
  assert (Hnth : nth j (split_lines page) [] = l) by now apply nth_error_nth.
  assert (Hlen : index f + length (matched f) <= length l).
  { rewrite <- Hline, !length_app. unfold index. lia. }
  assert (E : span_range page (span_of (0 + j) f)
              = span_offsets (split_lines page) 0 0 (span_of (0 + j) f)).
  { unfold span_range, span_offsets, span_of, posToOffset. simpl.
    apply Nat.ltb_lt in Hlt. rewrite Hlt, Hnth, !Nat.sub_0_r, !Nat2Z.id.
    rewrite !clip_in_line by lia. reflexivity. }
  split; [exact E|]. rewrite E.
  destruct (line_at _ _ _ Hj) as (X & Y & EX & HX). rewrite join_split in EX.
  unfold span_offsets, span_of. simpl. rewrite !Nat.sub_0_r, !Nat2Z.id, <- HX.
  rewrite EX, <- Hline. unfold index.
  replace (X ++ (before f ++ matched f ++ after f) ++ Y)
    with ((X ++ before f) ++ matched f ++ (after f ++ Y))
    by (now rewrite <- !app_assoc).
  replace (length X + length (before f)) with (length (X ++ before f))
    by apply length_app.
  replace (length X + (length (before f) + length (matched f)))
    with (length (X ++ before f) + length (matched f))
    by (rewrite length_app; lia).
  now rewrite sub_middle.
Qed.

(** The spans that the scan records, read as the editor reads them, are in
    document order and do not overlap. *)
Lemma scanned_spans_ordered page flag spans :
  getCheckboxesToConvert page flag = Some spans ->
  ordered 0 (map (span_range page) spans) (length page).
Proof.
  intros H.
  rewrite (map_ext_in _ (span_offsets (split_lines page) 0 0)).
  - pose proof (scan_lines_ordered flag _ 0 0 _ H) as Ho.
    now rewrite join_split in Ho.
  - intros sp Hsp. now destruct (scanned_span _ _ _ _ H Hsp).
Qed.

End SpanOffsets.

(** ** The bulk converter: the whole pass *)

Module BulkConverter.

Import JS Regex RegexFacts Host Run Plugin.
Import IdentifierGenerator BulkScan Placeholders SpanOffsets.
Local Open Scope run_scope.

(** *** The identifiers of a batch *)

Lemma foreign_by_check c :
  forallb (fun e => negb (existsb (ascii_eqb e) PLACEHOLDER)) c = true ->
  foreign c.
Proof.
  intros Hb e He Hin. rewrite forallb_forall in Hb. specialize (Hb e He).
  apply negb_true_iff in Hb.
  assert (Ht : existsb (ascii_eqb e) PLACEHOLDER = true).
  { apply existsb_exists. exists e. split; [assumption | apply ascii_eqb_refl]. }
  congruence.
Qed.

Lemma foreign_app a b : foreign a -> foreign b -> foreign (a ++ b).
Proof.
  intros Ha Hb e He. apply in_app_or in He. destruct He; [now apply Ha | now apply Hb].
Qed.

Lemma id_chars_issued id : forallb id_char id = true -> issued id.
Proof.
  intros H. split; [now apply id_chars_plain|].
  unfold control. repeat apply foreign_app; try (apply foreign_by_check; reflexivity).
  intros e He. rewrite forallb_forall in H. specialize (H e He).
  apply id_char_in in H.
  assert (Hhex : foreign (lit "0123456789abcdef-"))
    by (apply foreign_by_check; reflexivity).
  now apply Hhex.
Qed.

(** The call that [Array.from] makes for every span. *)
Definition draw_id (fuel : nat) : M str :=
  e <- get_editor ;; generateUniqueCheckboxId fuel (getValue e).

(** The random source keeps yielding identifiers that do not occur in the
    document. *)
Definition fresh_supply (w : World) : Prop :=
  forall d, exists n, ~ occurs (uuid_text (entropy w (d + n))) (value (editor w)).

Lemma draw_ids_return w :
  fresh_supply w ->
  forall k d, exists ids d' fuel0,
    length ids = k /\
    Forall (fun id => forallb id_char id = true /\ ~ occurs id (value (editor w))) ids /\
    forall fuel, fuel0 <= fuel ->
      times k (draw_id fuel) (with_draws w d) = Returned ids (with_draws w d').
Proof.
  intros Hsupply. induction k as [|k IH]; intros d.
  - exists [], d, 0. repeat split; auto.
  - destruct (Hsupply (S d)) as (n & Hn).
    destruct (generate_returns (value (editor w)) (with_draws w d) (S n))
      as (id & d1 & H1 & H2 & _ & H4).
    { unfold candidate, with_draws; cbn [entropy draws].
      now rewrite Nat.add_succ_r. }
    destruct (IH d1) as (ids & d' & fuel0 & Hlen & Hall & Hrun).
    exists (id :: ids), d', (Nat.max (S n) fuel0).
    split; [simpl; now rewrite Hlen|]. split; [now constructor|].
    intros fuel Hfuel. cbn [times]. unfold bind at 1. unfold draw_id at 1.
    unfold bind at 1. unfold get_editor at 1.
    change (getValue (editor (with_draws w d))) with (value (editor w)).
    rewrite H4 by lia. change (with_draws (with_draws w d) d1) with (with_draws w d1).
    unfold bind at 1. rewrite Hrun by lia. reflexivity.
Qed.

(** *** The selections and the placeholders *)

Lemma ordered_in : forall rs at_ bound x y,
  ordered at_ rs bound -> In (x, y) rs -> x <= y.
Proof.
  induction rs as [|[a b] rs IH]; intros at_ bound x y H Hin; [destruct Hin|].
  simpl in H. destruct H as (_ & Hab & H). destruct Hin as [E | Hin].
  - injection E as <- <-. exact Hab.
  - exact (IH _ _ _ _ H Hin).
Qed.

Lemma setSelections_some rs e :
  rs <> [] ->
  setSelections rs e =
    Some (MkEditor (value e)
            (map (fun r => Rng (posToOffset (value e) (fst r))
                               (posToOffset (value e) (snd r))) rs)).
Proof. destruct rs; [congruence | reflexivity]. Qed.

Lemma selected_ranges page spans :
  ordered 0 (map (span_range page) spans) (length page) ->
  map (fun r => (range_from r, range_to r, PLACEHOLDER))
      (map (fun sp => Rng (posToOffset page (fst sp)) (posToOffset page (snd sp))) spans)
  = placeholder_edits (map (span_range page) spans).
Proof.
  intros Ho. unfold placeholder_edits. rewrite !map_map. apply map_ext_in.
  intros sp Hsp. unfold range_from, range_to, span_range. cbn [anchor head fst snd].
  assert (Hle : posToOffset page (fst sp) <= posToOffset page (snd sp)).
  { apply (ordered_in _ _ _ _ _ Ho). apply in_map_iff. exists sp. auto. }
  f_equal. f_equal; lia.
Qed.

(** The world that a bulk conversion leaves: the new text, the cursor at
    its start, [d'] identifiers drawn. *)
Definition converted (w : World) (text : str) (d' : nat) : World :=
  MkWorld (MkEditor text [Rng 0 0]) (entropy w) d' (vault w).

Lemma convertCheckboxes_run w spans ids d' fuel :
  spans <> [] ->
  ordered 0 (map (span_range (value (editor w))) spans) (length (value (editor w))) ->
  times (length spans) (draw_id fuel) w = Returned ids (with_draws w d') ->
  convertCheckboxes fuel spans w =
    Returned tt
      (converted w
         (fill (splice (value (editor w)) 0
                  (placeholder_edits (map (span_range (value (editor w))) spans))) ids)
         d').
Proof.
  intros Hne Ho Hids. unfold convertCheckboxes. unfold bind at 1.
  fold (draw_id fuel). rewrite Hids.
  unfold bind at 1. unfold get_editor at 1.
  change (editor (with_draws w d')) with (editor w).
  rewrite (setSelections_some _ _ Hne).
  unfold bind, get_editor, put_editor, replaceSelection, setValue, getValue, converted.
  cbn [editor value selections entropy draws vault with_draws].
  rewrite (selected_ranges _ _ Ho). reflexivity.
Qed.

(** C10, as it is stated, fails: the document below does not hold the
    placeholder, one span is recorded, and the conversion takes away text
    that stands before the span. *)
Lemma convertCheckboxes_placeholder_stem_before_span :
  let page := lit "| !!PLACEHOLDER_TO_BE_REPLACED_WITH_CHECKBOX-[] |" in
  let w := MkWorld (MkEditor page [Rng 0 0]) SingleConverter.some_entropy 0 [] in
  let spans := [(Pos 0 44, Pos 0 47)] in
  ~ occurs PLACEHOLDER page /\
  getCheckboxesToConvert page false = Some spans /\
  times 1 (draw_id 1) w = Returned [lit "abcdef"] (with_draws w 1) /\
  convertAllCheckboxes 1 false w =
    Returned tt
      (converted w (lit "| " ++ control false (lit "abcdef")
                    ++ lit "PLACEHOLDER_TO_BE_REPLACED_WITH_CHECKBOX!! |") 1) /\
  splice page 0 (control_edits (map (span_range page) spans) [lit "abcdef"])
    = lit "| !!PLACEHOLDER_TO_BE_REPLACED_WITH_CHECKBOX" ++ control false (lit "abcdef")
      ++ lit " |" /\
  lit "| " ++ control false (lit "abcdef")
    ++ lit "PLACEHOLDER_TO_BE_REPLACED_WITH_CHECKBOX!! |"
  <> splice page 0 (control_edits (map (span_range page) spans) [lit "abcdef"]).
Proof.
  repeat split; try (vm_compute; reflexivity).
  - apply exec_literal_none. vm_compute. reflexivity.
  - vm_compute. discriminate.
Qed.

(** No recorded span is directly preceded by the placeholder short of its
    last character or of its last two. *)
Definition no_stem_before_spans (page : str) (spans : list Span) : Prop :=
  forall sp, In sp spans -> ~ stem_before page (posToOffset page (fst sp)).

Lemma no_stem_before_spans_by_check page spans :
  forallb (fun sp =>
             negb (ends_with_b PLACEHOLDER_stem (firstn (posToOffset page (fst sp)) page))
             && negb (ends_with_b PLACEHOLDER_stem1 (firstn (posToOffset page (fst sp)) page)))
          spans = true ->
  no_stem_before_spans page spans.
Proof.
  intros H sp Hsp Hbefore. rewrite forallb_forall in H. specialize (H sp Hsp).
  apply andb_true_iff in H. destruct H as [H1 H2]. apply negb_true_iff in H1, H2.
  destruct Hbefore as [Hb | Hb]; apply ends_with_b_complete in Hb; congruence.
Qed.

(** C10 (what a bulk conversion changes), amended.  Take a document in which
    the placeholder does not occur and in which no recorded span is directly
    preceded by the placeholder short of its last character or of its last
    two, a random source that keeps yielding identifiers that do not occur
    in the document, and a scan that records at least one span.  Then the
    conversion comes to an end; the recorded spans are tokens, in document
    order, and do not overlap; and the new text is the old text with every
    recorded span replaced by the unchecked control that carries the
    identifier drawn for it, in the order of recording.  All other
    characters are kept. *)
Theorem convertAllCheckboxes_changes_recorded_spans
    (w : World) (flag : bool) (spans : list Span) :
  ~ occurs PLACEHOLDER (value (editor w)) ->
  no_stem_before_spans (value (editor w)) spans ->
  fresh_supply w ->
  getCheckboxesToConvert (value (editor w)) flag = Some spans ->
  spans <> [] ->
  let page := value (editor w) in
  let ranges := map (span_range page) spans in
  exists ids d' fuel0,
    length ids = length spans /\
    Forall (fun id => ~ occurs id page) ids /\
    ordered 0 ranges (length page) /\
    Forall (fun r => token (sub page (fst r) (snd r))) ranges /\
    splice page 0 (map (fun r => (fst r, snd r, sub page (fst r) (snd r))) ranges) = page /\
    forall fuel, fuel0 <= fuel ->
      times (length spans) (draw_id fuel) w = Returned ids (with_draws w d') /\
      convertAllCheckboxes fuel flag w =
        Returned tt (converted w (splice page 0 (control_edits ranges ids)) d').
Proof.
  intros Hpage Hstem Hsupply Hscan Hne page ranges.
  destruct (draw_ids_return w Hsupply (length spans) (draws w))
    as (ids & d' & fuel0 & Hlen & Hall & Hrun).
  rewrite with_draws_same in Hrun.
  pose proof (scanned_spans_ordered _ _ _ Hscan) as Ho.
  exists ids, d', fuel0. split; [exact Hlen|].
  split; [apply (Forall_impl _ (fun id H => proj2 H) Hall)|].
  split; [exact Ho|].
  split; [|split].
  - apply Forall_forall. intros r Hr. apply in_map_iff in Hr.
    destruct Hr as (sp & <- & Hsp). now destruct (scanned_span _ _ _ _ Hscan Hsp).
  - now rewrite (splice_own_text page ranges 0 Ho).
  - intros fuel Hfuel. split; [now apply Hrun|].
    unfold convertAllCheckboxes. unfold bind at 1. unfold get_editor at 1.
    unfold getValue. rewrite Hscan.
    rewrite (convertCheckboxes_run w spans ids d' fuel Hne Ho (Hrun fuel Hfuel)).
    f_equal. f_equal.
    apply (fill_placeholders page ranges ids [] 0).
    + unfold ranges. now rewrite length_map.
    + apply closed_nil.
    + apply (gaps_clean_of_page page Hpage ranges 0 (length page) Ho).
      intros r Hr. apply in_map_iff in Hr. destruct Hr as (sp & <- & Hsp).
      now apply Hstem.
    + apply Forall_forall. intros id Hid. rewrite Forall_forall in Hall.
      apply id_chars_issued. now apply Hall.
Qed.

Lemma occurs_in x s c : occurs x s -> In c x -> In c s.
Proof.
  intros (a & b & ->) H. apply in_or_app. right. apply in_or_app. now left.
Qed.

(** Every identifier of the random source has the version digit [4]. *)
Lemma uuid_text_version bits : In "4"%char (uuid_text bits).
Proof.
  unfold uuid_text. apply in_or_app. right. right. apply in_or_app. right. right.
  apply in_or_app. left. left. reflexivity.
Qed.

Lemma fresh_supply_without_version_digit w :
  ~ In "4"%char (value (editor w)) -> fresh_supply w.
Proof.
  intros H d. exists 0. intros Hocc. apply H.
  apply (occurs_in _ _ _ Hocc), uuid_text_version.
Qed.

Lemma not_in_by_check (c : ascii) (s : str) :
  existsb (ascii_eqb c) s = false -> ~ In c s.
Proof.
  intros H Hin.
  assert (Ht : existsb (ascii_eqb c) s = true).
  { apply existsb_exists. exists c. split; [assumption | apply ascii_eqb_refl]. }
  congruence.
Qed.

Lemma convertAllCheckboxes_changes_recorded_spans_witness :
  let page := lit "| !!PLACEHOLDER_TO_BE_REPLACED_WITH_CHECKBOX | -[] | - [ ] |" in
  let w := MkWorld (MkEditor page [Rng 0 0]) SingleConverter.some_entropy 0 [] in
  let spans := [(Pos 0 47, Pos 0 50); (Pos 0 53, Pos 0 58)] in
  let ranges := map (span_range page) spans in
  exists ids d' fuel0,
    length ids = length spans /\
    Forall (fun id => ~ occurs id page) ids /\
    ordered 0 ranges (length page) /\
    Forall (fun r => token (sub page (fst r) (snd r))) ranges /\
    splice page 0 (map (fun r => (fst r, snd r, sub page (fst r) (snd r))) ranges) = page /\
    forall fuel, fuel0 <= fuel ->
      times (length spans) (draw_id fuel) w = Returned ids (with_draws w d') /\
      convertAllCheckboxes fuel false w =
        Returned tt (converted w (splice page 0 (control_edits ranges ids)) d').
Proof.
  intros page w spans.
  apply (convertAllCheckboxes_changes_recorded_spans w false spans).
  - apply exec_literal_none. vm_compute. reflexivity.
  - apply no_stem_before_spans_by_check. vm_compute. reflexivity.
  - apply fresh_supply_without_version_digit. apply not_in_by_check.
    vm_compute. reflexivity.
  - vm_compute. reflexivity.
  - discriminate.
Defined.

(** C1 (the identifiers of a batch are distinct) fails.  The two identifiers
    that the random source yields here differ, and they end in the same six
    characters; neither of the six-character candidates occurs in the
    document, so both are issued, and the two controls carry the same
    identifier. *)
Theorem convertCheckboxes_issues_one_identifier_twice :
  let page := lit "| -[] | -[] |" in
  let w := MkWorld (MkEditor page [Rng 0 0]) SingleConverter.some_entropy 0 [] in
  uuid_text (entropy w 0) = lit "00000000-0000-4000-8000-000000abcdef" /\
  uuid_text (entropy w 1) = lit "00000000-0000-4000-8000-000001abcdef" /\
  getCheckboxesToConvert page false = Some [(Pos 0 2, Pos 0 5); (Pos 0 8, Pos 0 11)] /\
  times 2 (draw_id 1) w = Returned [lit "abcdef"; lit "abcdef"] (with_draws w 2) /\
  ~ NoDup [lit "abcdef"; lit "abcdef"] /\
  convertAllCheckboxes 1 false w =
    Returned tt
      (converted w (lit "| " ++ control false (lit "abcdef") ++ lit " | "
                    ++ control false (lit "abcdef") ++ lit " |") 2).
Proof.
  repeat split; try (vm_compute; reflexivity).
  intros H. inversion H as [|? ? Hin _]. apply Hin. now left.
Qed.

End BulkConverter.

(** * Further properties of the code *)

(** ** The token matcher, beyond the table-context classification *)

Module TokenMatcherMore.

Import JS Regex RegexFacts Host Run Plugin TokenMatcher BulkScan Placeholders.

(** Two texts that start with characters of one class and go on with a
    character outside it split at the same place. *)
Lemma class_prefix_unique (p : ascii -> bool) : forall (pre1 pre2 : str) x y r1 r2,
  forallb p pre1 = true -> forallb p pre2 = true ->
  p x = false -> p y = false ->
  pre1 ++ x :: r1 = pre2 ++ y :: r2 ->
  pre1 = pre2 /\ x = y /\ r1 = r2.
Proof.
  induction pre1 as [|c pre1 IH]; intros pre2 x y r1 r2 H1 H2 Hx Hy E.
  - destruct pre2 as [|d pre2]; simpl in E.
    + injection E as -> ->. auto.
    + injection E as -> _. simpl in H2. apply andb_true_iff in H2. destruct H2. congruence.
  - destruct pre2 as [|d pre2]; simpl in E.
    + injection E as -> _. simpl in H1. apply andb_true_iff in H1. destruct H1. congruence.
    + injection E as -> E. simpl in H1, H2.
      apply andb_true_iff in H1, H2. destruct H1 as [_ H1], H2 as [_ H2].
      destruct (IH _ _ _ _ _ H1 H2 Hx Hy E) as (-> & -> & ->). auto.
Qed.

Lemma star_blank_or_quote_inv l w :
  Matches (Star (Alt Space (Chr ">"))) l w -> forallb blank_or_quote w = true.
Proof.
  intros H. remember (Star (Alt Space (Chr ">"))) as r eqn:Er.
  induction H; try discriminate; [reflexivity|].
  injection Er as ->. rewrite forallb_app. rewrite IHMatches2 by reflexivity.
  rewrite andb_true_r. clear IHMatches1 IHMatches2 H1 H0.
  inversion H as [| | | | | |? ? ? ? K|? ? ? ? K| | | |]; subst.
  - apply matches_space_inv in K. destruct K as (c & -> & Hc). simpl.
    unfold blank_or_quote. now rewrite Hc.
  - apply matches_chr_inv in K. subst. reflexivity.
Qed.

(** On a text without a line terminator, [^] holds at the start only. *)
Lemma line_start_of_line (p rest : str) :
  forallb same_line (p ++ rest) = true -> at_line_start (rev p) = true -> p = [].
Proof.
  intros Hline Hstart. destruct p as [|c p] using rev_ind; [reflexivity|].
  exfalso. rewrite rev_app_distr in Hstart. simpl in Hstart.
  rewrite forallb_app, forallb_app in Hline. simpl in Hline.
  apply andb_true_iff in Hline. destruct Hline as [Hline _].
  apply andb_true_iff in Hline. destruct Hline as [_ Hc].
  unfold same_line in Hc. rewrite Hstart in Hc. discriminate.
Qed.

(** X1.  A row whose first character after white space and blockquote
    markers is not a pipe is no table-context line, whatever follows: a
    table row written without its leading pipe is not recognized. *)
Theorem isMDCheckboxInTable_needs_leading_pipe (line pre : str) (c : ascii) (rest : str) :
  forallb same_line line = true ->
  line = pre ++ c :: rest ->
  forallb blank_or_quote pre = true ->
  blank_or_quote c = false ->
  c <> "|"%char ->
  isMDCheckboxInTable line = false.
Proof.
  intros Hline Eline Hpre Hc Hpipe. unfold isMDCheckboxInTable, exec.
  destruct (search_from tableRegex [] line) as [f|] eqn:E; [|reflexivity].
  exfalso. apply search_from_sound in E. destruct E as (p & _ & Hs & Hm & _).
  rewrite app_nil_r in Hm. unfold tableRegex in Hm.
  apply matches_seq_inv in Hm. destruct Hm as (w0 & x0 & Ew & H0 & Hm).
  apply matches_seq_inv in Hm. destruct Hm as (w1 & x1 & -> & H1 & Hm).
  apply matches_seq_inv in Hm. destruct Hm as (w2 & x2 & -> & H2 & _).
  inversion H0 as [| | |? Hstart| | | | | | | |]; subst w0. simpl in Ew.
  apply matches_chr_inv in H2. subst w2.
  apply star_blank_or_quote_inv in H1.
  assert (p = []) as ->.
  { apply (line_start_of_line p (matched f ++ after f)); [|assumption]. now rewrite <- Hs. }
  simpl in Hs. rewrite Ew, <- !app_assoc in Hs. simpl in Hs. rewrite Eline in Hs.
  assert (Hbar : blank_or_quote "|"%char = false) by reflexivity.
  destruct (class_prefix_unique blank_or_quote _ _ _ _ _ _ Hpre H1 Hc Hbar Hs)
    as (_ & Ec & _).
  contradiction.
Qed.

Lemma isMDCheckboxInTable_needs_leading_pipe_witness :
  isMDCheckboxInTable (lit "Name | - [ ] |") = false.
Proof.
  apply (isMDCheckboxInTable_needs_leading_pipe
           (lit "Name | - [ ] |") [] "N"%char (lit "ame | - [ ] |")).
  - reflexivity.
  - reflexivity.
  - reflexivity.
  - reflexivity.
  - discriminate.
Defined.

(** What [getCheckboxLength] looks for: a dash, at most one white space, an
    opening bracket, at most one white space and, maybe, a closing
    bracket. *)
Inductive typed_token : str -> Prop :=
| TypedToken sp1 sp2 close :
    opt_space sp1 -> opt_space sp2 -> close = [] \/ close = ["]"%char] ->
    typed_token ("-"%char :: sp1 ++ "["%char :: sp2 ++ close).

Lemma checkboxRegex_matches l w : Matches checkboxRegex l w -> typed_token w.
Proof.
  unfold checkboxRegex. intros H.
  apply matches_seq_inv in H. destruct H as (w0 & x0 & -> & H0 & H).
  apply matches_seq_inv in H. destruct H as (w1 & x1 & -> & H1 & H).
  apply matches_seq_inv in H. destruct H as (w2 & x2 & -> & H2 & H).
  apply matches_seq_inv in H. destruct H as (w3 & x3 & -> & H3 & H).
  apply matches_chr_inv in H0, H2. subst.
  apply opt_space_matches in H1, H3. simpl. constructor; auto.
  apply matches_opt_inv in H. destruct H as [-> | [H _]]; [now left|].
  apply matches_chr_inv in H. now right.
Qed.

Lemma opt_space_length sp : opt_space sp -> length sp <= 1.
Proof. intros [-> | (c & _ & ->)]; simpl; lia. Qed.

Lemma typed_token_length w : typed_token w -> 2 <= length w <= 5.
Proof.
  intros [sp1 sp2 close H1 H2 Hc]. apply opt_space_length in H1, H2.
  simpl. rewrite length_app. simpl. rewrite length_app.
  destruct Hc as [-> | ->]; simpl; lia.
Qed.

Lemma occurs_slice (s : str) a b : occurs (slice s a b) s.
Proof.
  unfold slice.
  exists (firstn (Z.to_nat (clampIndex (Z.of_nat (length s)) a)) s),
         (skipn (Z.to_nat (Z.max (clampIndex (Z.of_nat (length s)) b
                                  - clampIndex (Z.of_nat (length s)) a) 0))
                (skipn (Z.to_nat (clampIndex (Z.of_nat (length s)) a)) s)).
  now rewrite firstn_skipn, firstn_skipn.
Qed.

(** X2.  Whatever [getCheckboxLength] returns is a typed token: it starts
    with a dash, holds an opening bracket, has two to five characters (so
    it is never the empty text), and it is a piece of the line. *)
Theorem getCheckboxLength_returns_typed_token (viewData : str) (ch : Z) (checkbox : str) :
  getCheckboxLength viewData ch = Some checkbox ->
  typed_token checkbox /\ 2 <= length checkbox <= 5 /\ occurs checkbox viewData.
Proof.
  unfold getCheckboxLength, exec. intros H.
  destruct (search_from checkboxRegex [] _) as [f|] eqn:E; [|discriminate].
  injection H as <-. apply search_from_sound in E.
  destruct E as (p & _ & Hs & Hm & _). apply checkboxRegex_matches in Hm.
  split; [exact Hm|]. split; [now apply typed_token_length|].
  eapply occurs_trans; [|apply occurs_slice]. exists p, (after f). exact Hs.
Qed.

Lemma getCheckboxLength_returns_typed_token_witness :
  typed_token (lit "- [") /\ 2 <= length (lit "- [") <= 5
  /\ occurs (lit "- [") (lit "| - [x").
Proof.
  apply (getCheckboxLength_returns_typed_token (lit "| - [x") 6 (lit "- [")).
  reflexivity.
Defined.

End TokenMatcherMore.

(** ** The single-checkbox converter: when the selection is the token *)

Module SingleConverterMore.

Import JS Regex RegexFacts Host Run Plugin TokenMatcher BulkScan Placeholders SpanOffsets.
Local Open Scope run_scope.

(** *** Slices and pieces *)

Lemma slice_inside (s : str) (a b : Z) :
  (0 <= a <= b)%Z -> (b <= Z.of_nat (length s))%Z ->
  slice s a b = sub s (Z.to_nat a) (Z.to_nat b).
Proof.
  intros Hab Hb. unfold slice, sub, clampIndex.
  destruct (Z.ltb_spec a 0) as [|_]; [lia|].
  destruct (Z.ltb_spec b 0) as [|_]; [lia|].
  rewrite !Z.min_l by lia. f_equal. lia.
Qed.

Lemma sub_length (s : str) a b : a <= b <= length s -> length (sub s a b) = b - a.
Proof. intros H. unfold sub. rewrite length_firstn, length_skipn. lia. Qed.

Lemma sub_split (s : str) a b :
  a <= b <= length s -> s = firstn a s ++ sub s a b ++ skipn b s.
Proof.
  intros H. unfold sub.
  rewrite <- (firstn_skipn a s) at 1. f_equal.
  rewrite <- (firstn_skipn (b - a) (skipn a s)) at 1. f_equal.
  rewrite skipn_skipn. f_equal. lia.
Qed.

(** The text between two columns of a line of the document is what a
    selection from the one to the other holds. *)
Lemma selection_in_line (e : Editor) (n : nat) (line : str) (a b : nat) :
  nth_error (split_lines (value e)) n = Some line ->
  a <= b <= length line ->
  getSelection (setSelection (Pos n (Z.of_nat a)) (Pos n (Z.of_nat b)) e)
  = sub line a b.
Proof.
  intros Hn Hab.
  assert (Hlt : n < length (split_lines (value e))) by (apply nth_error_Some; congruence).
  assert (Hnth : nth n (split_lines (value e)) [] = line) by now apply nth_error_nth.
  destruct (line_at _ _ _ Hn) as (X & Y & EX & HX). rewrite join_split in EX.
  unfold getSelection, setSelection. cbn [selections value last].
  unfold range_from, range_to. cbn [anchor head].
  unfold posToOffset. cbn [Host.line Host.ch].
  apply Nat.ltb_lt in Hlt. rewrite Hlt, Hnth, !clip_in_line by lia.
  rewrite Nat.min_l, Nat.max_r by lia. rewrite <- HX.
  rewrite EX at 1. rewrite (sub_split line a b Hab) at 1.
  replace (X ++ (firstn a line ++ sub line a b ++ skipn b line) ++ Y)
    with ((X ++ firstn a line) ++ sub line a b ++ (skipn b line ++ Y))
    by (now rewrite <- !app_assoc).
  assert (Ha : length (X ++ firstn a line) = length X + a)
    by (rewrite length_app, length_firstn; lia).
  replace (length X + b) with (length (X ++ firstn a line) + length (sub line a b))
    by (rewrite Ha, sub_length by lia; lia).
  rewrite <- Ha. apply sub_middle.
Qed.

(** X3.  When the token found ends where the window ends, and ends with a
    closing bracket just when the character at the cursor is one, the text
    that [handleCheckboxReplacement] selects is the token.  (When the token
    ends earlier in the window, or its bracket stands before the cursor, the
    selection is a different text: C3.) *)
Theorem handleCheckboxReplacement_selects_token
    (e : Editor) (n : nat) (line : str) (ch : Z) (p checkbox : str) :
  nth_error (split_lines (value e)) n = Some line ->
  (4 <= ch <= Z.of_nat (length line))%Z ->
  exec checkboxRegex
    (slice line (ch - 4) (if charIs line ch "]" then ch + 1 else ch))
    = Some (Found p checkbox []) ->
  endsWith checkbox "]" = charIs line ch "]" ->
  getCheckboxLength line ch = Some checkbox /\
  getSelection (setSelection (fst (selection_ends (Pos n ch) checkbox))
                             (snd (selection_ends (Pos n ch) checkbox)) e)
  = checkbox.
Proof.
  intros Hn Hch Hexec Hends.
  split; [unfold getCheckboxLength; now rewrite Hexec|].
  set (stop := (if charIs line ch "]" then ch + 1 else ch)%Z) in *.
  assert (Hstop : (ch <= stop <= Z.of_nat (length line))%Z).
  { unfold stop. destruct (charIs line ch "]") eqn:Ec; [|lia].
    unfold charIs, charAt in Ec. destruct (Z.ltb_spec ch 0) as [|_]; [discriminate|].
    destruct (nth_error line (Z.to_nat ch)) eqn:En; [|discriminate].
    assert (Z.to_nat ch < length line) by (apply nth_error_Some; congruence). lia. }
  rewrite slice_inside in Hexec by lia.
  unfold exec in Hexec. apply search_from_sound in Hexec.
  destruct Hexec as (p' & Hb & Hs & _ & _). cbn [before matched after] in Hb, Hs.
  simpl in Hb. subst p'. rewrite app_nil_r in Hs.
  assert (Hlen : length p + length checkbox = Z.to_nat stop - Z.to_nat (ch - 4)).
  { rewrite <- length_app, <- Hs. apply sub_length. lia. }
  set (a := Z.to_nat (ch - 4) + length p).
  assert (Hsel : selection_ends (Pos n ch) checkbox
                 = (Pos n (Z.of_nat a), Pos n (Z.of_nat (a + length checkbox)))).
  { unfold selection_ends. rewrite Hends. cbn [Host.line Host.ch]. fold stop.
    unfold a. f_equal; f_equal; lia. }
  rewrite Hsel. cbn [fst snd].
  rewrite (selection_in_line e n line a (a + length checkbox) Hn) by (unfold a; lia).
  assert (Hline : line = (firstn (Z.to_nat (ch - 4)) line ++ p) ++ checkbox
                         ++ skipn (Z.to_nat stop) line).
  { rewrite <- app_assoc. rewrite (app_assoc p). rewrite <- Hs.
    apply sub_split. lia. }
  assert (Ha : a = length (firstn (Z.to_nat (ch - 4)) line ++ p)).
  { unfold a. rewrite length_app, length_firstn. lia. }
  rewrite Hline at 1. rewrite Ha. apply sub_middle.
Qed.

Lemma handleCheckboxReplacement_selects_token_witness :
  let line := lit "| a | - [ ] |" in
  let e := MkEditor (lit "first line" ++ newline :: line) [Rng 21 21] in
  getCheckboxLength line 10 = Some (lit "- [ ]") /\
  getSelection (setSelection (fst (selection_ends (Pos 1 10) (lit "- [ ]")))
                             (snd (selection_ends (Pos 1 10) (lit "- [ ]"))) e)
  = lit "- [ ]".
Proof.
  intros line e.
  apply (handleCheckboxReplacement_selects_token e 1 line 10 [] (lit "- [ ]")).
  - reflexivity.
  - simpl. lia.
  - reflexivity.
  - reflexivity.
Defined.

(** *** When the listener does nothing *)

Lemma not_table_context_without_pipe line :
  no_pipe_before_marker line -> isMDCheckboxInTable line = false.
Proof.
  intros Hno. unfold isMDCheckboxInTable, exec.
  destruct (search_from tableRegex [] line) as [f|] eqn:E; [|reflexivity].
  exfalso. apply search_from_sound in E.
  destruct E as (p & _ & Hs & Hm & _). rewrite app_nil_r in Hm.
  destruct (table_row_has_pipe_before_marker _ _ (after f) Hm)
    as (a & m' & b & E & Hmk & Hin).
  rewrite <- Hs in E. exact (Hno a m' b E Hmk Hin).
Qed.

Lemma charIs_in s i c : charIs s i c = true -> In c s.
Proof.
  unfold charIs, charAt. destruct (i <? 0)%Z; [discriminate|].
  destruct (nth_error s (Z.to_nat i)) as [d|] eqn:E; [|discriminate].
  intros H. apply ascii_eqb_eq in H. subst d. now apply nth_error_In in E.
Qed.

Lemma too_far_without_bracket line ch :
  ~ In "["%char line -> closingBracketIsTooFar line ch = true.
Proof.
  intros H. unfold closingBracketIsTooFar.
  destruct (charIs line (ch - 1) "[") eqn:E1; [apply charIs_in in E1; contradiction|].
  destruct (charIs line (ch - 2) "[") eqn:E2; [apply charIs_in in E2; contradiction|].
  reflexivity.
Qed.

(** X4.  Whatever is typed and wherever the cursor stands in its line: if
    no pipe stands before a dash-bracket marker in that line, or the line
    holds no opening bracket, the listener of [input] events returns and
    leaves editor, vault and random source as they are. *)
Theorem onInput_leaves_line_alone (fuel : nat) (data : str) (w : World) :
  let rowValue := getLine (line (getCursor_anchor (editor w))) (editor w) in
  no_pipe_before_marker rowValue \/ ~ In "["%char rowValue ->
  onInput fuel data w = Returned tt w.
Proof.
  intros rowValue H. unfold onInput.
  destruct (negb (str_eqb data (lit "]"))); [reflexivity|].
  unfold bind at 1. unfold get_editor at 1. fold rowValue.
  destruct H as [H | H].
  - now rewrite (not_table_context_without_pipe _ H).
  - rewrite (too_far_without_bracket _ _ H), orb_true_r. reflexivity.
Qed.

Lemma onInput_leaves_line_alone_witness :
  let w := MkWorld (MkEditor (lit "some text ] more") [Rng 11 11])
                   SingleConverter.some_entropy 0 [] in
  onInput 3 (lit "]") w = Returned tt w.
Proof.
  intros w. apply (onInput_leaves_line_alone 3 (lit "]") w).
  right. apply BulkConverter.not_in_by_check. reflexivity.
Defined.

End SingleConverterMore.

(** ** The identifier generator: what a call that returns has done *)

Module IdentifierGeneratorMore.

Import JS Regex RegexFacts Host Run Plugin IdentifierGenerator.
Local Open Scope run_scope.

(** X5.  For an identifier of plain characters, [idExistsInFile] is a search
    for the identifier as a piece of the whole text, wherever it stands: it
    answers [true] just when the identifier occurs in the text, in a control
    or in any other text. *)
Theorem idExistsInFile_searches_whole_text (id page : str) :
  forallb plain id = true ->
  (idExistsInFile id page = Some true <-> occurs id page) /\
  (idExistsInFile id page = Some false <-> ~ occurs id page).
Proof.
  intros Hp. destruct (idExistsInFile_plain id page Hp) as [Hyes Hno].
  destruct (occurs_dec_plain id page Hp) as [Hocc | Hnocc].
  - split; split; intros H; auto; try contradiction.
    rewrite (Hyes Hocc) in H. discriminate.
  - split; split; intros H; auto; try contradiction.
    rewrite (Hno Hnocc) in H. discriminate.
Qed.

Lemma idExistsInFile_searches_whole_text_witness :
  (idExistsInFile (lit "c0ffee") (lit "see https://example.org/c0ffee.png") = Some true
   <-> occurs (lit "c0ffee") (lit "see https://example.org/c0ffee.png")) /\
  (idExistsInFile (lit "c0ffee") (lit "see https://example.org/c0ffee.png") = Some false
   <-> ~ occurs (lit "c0ffee") (lit "see https://example.org/c0ffee.png")).
Proof.
  apply (idExistsInFile_searches_whole_text
           (lit "c0ffee") (lit "see https://example.org/c0ffee.png")).
  reflexivity.
Defined.

Lemma uuid_text_length36 bits : length (uuid_text bits) = 36.
Proof. reflexivity. Qed.

Lemma last_six_length bits : length (sliceFrom (uuid_text bits) (-6)) = 6.
Proof.
  unfold sliceFrom, slice. rewrite !uuid_text_length36.
  change (clampIndex (Z.of_nat 36) (-6)) with 30%Z.
  change (clampIndex (Z.of_nat 36) (Z.of_nat 36)) with 36%Z.
  change (Z.to_nat (Z.max (36 - 30) 0)) with 6.
  change (Z.to_nat 30) with 30.
  rewrite length_firstn, length_skipn, uuid_text_length36. reflexivity.
Qed.

(** An identifier as the generator issues it: hexadecimal digits and
    hyphens, six characters or thirty-six. *)
Definition well_formed_id (id : str) : Prop :=
  forallb id_char id = true /\ (length id = 6 \/ length id = 36).

(** A world that differs from [w] at most in the number of identifiers
    drawn, which has not gone down. *)
Definition only_drawn (w w' : World) : Prop :=
  editor w' = editor w /\ vault w' = vault w /\ entropy w' = entropy w /\
  draws w <= draws w'.

Lemma generate_loop_returned page : forall fuel id w id' w',
  well_formed_id id ->
  generate_loop fuel id page w = Returned id' w' ->
  ~ occurs id' page /\ well_formed_id id' /\ only_drawn w w'.
Proof.
  induction fuel as [|fuel IH]; intros id w id' w' Hwf H;
    pose proof (id_chars_plain _ (proj1 Hwf)) as Hp;
    cbn [generate_loop] in H;
    destruct (occurs_dec_plain id page Hp) as [Hocc | Hnocc].
  - rewrite (proj1 (idExistsInFile_plain id page Hp) Hocc) in H. discriminate.
  - rewrite (proj2 (idExistsInFile_plain id page Hp) Hnocc) in H.
    injection H as <- <-. repeat split; auto; apply Hwf.
  - rewrite (proj1 (idExistsInFile_plain id page Hp) Hocc) in H.
    unfold bind, randomUUID in H.
    apply IH in H.
    + destruct H as (H1 & H2 & H3 & H4 & H5 & H6). cbn [editor vault entropy draws] in *.
      split; [exact H1|]. split; [exact H2|]. repeat split; auto. lia.
    + split; [apply uuid_text_id_chars | right; apply uuid_text_length36].
  - rewrite (proj2 (idExistsInFile_plain id page Hp) Hnocc) in H.
    injection H as <- <-. repeat split; auto; apply Hwf.
Qed.

(** X6.  Whenever [generateUniqueCheckboxId] returns, the identifier it
    returns does not occur in the text it was given; it is made of
    hexadecimal digits and hyphens and has six or thirty-six characters; at
    least one identifier was drawn from the random source; and the editor
    and the vault are as they were. *)
Theorem generateUniqueCheckboxId_returned
    (fuel : nat) (page : str) (w : World) (id : str) (w' : World) :
  generateUniqueCheckboxId fuel page w = Returned id w' ->
  ~ occurs id page /\ well_formed_id id /\
  editor w' = editor w /\ vault w' = vault w /\ entropy w' = entropy w /\
  draws w < draws w'.
Proof.
  unfold generateUniqueCheckboxId, bind, randomUUID. intros H.
  apply generate_loop_returned in H.
  - destruct H as (H1 & H2 & H3 & H4 & H5 & H6). cbn [editor vault entropy draws] in *.
    split; [exact H1|]. split; [exact H2|]. repeat split; auto.
  - split; [apply slice_id_chars, uuid_text_id_chars | left; apply last_six_length].
Qed.

Lemma generateUniqueCheckboxId_returned_witness :
  let page := lit "| abcdef -[] |" in
  let w := MkWorld (MkEditor page [Rng 0 0]) SingleConverter.some_entropy 0 [] in
  let id := lit "00000000-0000-4000-8000-000001abcdef" in
  ~ occurs id page /\ well_formed_id id /\
  editor (with_draws w 2) = editor w /\ vault (with_draws w 2) = vault w /\
  entropy (with_draws w 2) = entropy w /\ draws w < draws (with_draws w 2).
Proof.
  intros page w id.
  apply (generateUniqueCheckboxId_returned 1 page w id (with_draws w 2)).
  vm_compute. reflexivity.
Defined.

End IdentifierGeneratorMore.

(** ** The toggle synchronizer, for the identifiers that the generator issues *)

Module ToggleSynchronizerMore.

Import JS Regex RegexFacts Host Run Plugin.
Import IdentifierGenerator ToggleSynchronizer Placeholders.

(** *** Controls do not overlap *)

(** A text that starts with [<] and holds no other [<]. *)
Definition tag_like (x : str) : Prop :=
  exists x', x = "<"%char :: x' /\ ~ In "<"%char x'.

Lemma control_tag_like b id : forallb id_char id = true -> tag_like (control b id).
Proof.
  intros Hid.
  exists ((lit "input type=" ++ dquote :: lit "checkbox" ++ dquote :: lit " ")
          ++ (if b then [] else lit "un") ++ control_mid ++ id ++ control_tail).
  split; [reflexivity|]. intros Hin.
  apply in_app_or in Hin. destruct Hin as [Hin | Hin];
    [revert Hin; apply BulkConverter.not_in_by_check; reflexivity|].
  apply in_app_or in Hin. destruct Hin as [Hin | Hin];
    [revert Hin; apply BulkConverter.not_in_by_check; destruct b; reflexivity|].
  apply in_app_or in Hin. destruct Hin as [Hin | Hin];
    [revert Hin; apply BulkConverter.not_in_by_check; reflexivity|].
  apply in_app_or in Hin. destruct Hin as [Hin | Hin];
    [|revert Hin; apply BulkConverter.not_in_by_check; reflexivity].
  rewrite forallb_forall in Hid. apply Hid in Hin. discriminate.
Qed.

(** Where a tag-like text can stand in a text that holds another one: before
    it, at its place, or after it. *)
Lemma tag_like_apart (pre old post a x b : str) :
  tag_like old -> tag_like x ->
  pre ++ old ++ post = a ++ x ++ b ->
  (exists u, pre = a ++ x ++ u) \/
  length a = length pre \/
  (exists u, post = u ++ x ++ b).
Proof.
  intros (old' & -> & Hold) (x' & -> & Hx) E.
  apply app_eq_app in E. destruct E as (z & [[Hpre E] | [Ha E]]).
  - destruct z as [|c z].
    + right. left. rewrite Hpre, app_nil_r. reflexivity.
    + left. simpl in E. injection E as <- E.
      destruct (prefix_before_foreign x' z "<"%char (old' ++ post) b Hx (eq_sym E))
        as (u & ->).
      exists u. rewrite Hpre. reflexivity.
  - destruct z as [|c z].
    + right. left. rewrite Ha, app_nil_r. reflexivity.
    + right. right. simpl in E. injection E as <- E.
      destruct (prefix_before_foreign old' z "<"%char (x' ++ b) post Hold (eq_sym E))
        as (u & ->).
      rewrite <- app_assoc in E. apply app_inv_head in E. now exists u.
Qed.

Lemma same_start (pre a r r' : str) :
  length a = length pre -> pre ++ r = a ++ r' -> a = pre /\ r = r'.
Proof.
  revert a. induction pre as [|c pre IH]; intros [|d a] Hlen E; simpl in *;
    try discriminate; auto.
  injection E as <- E. injection Hlen as Hlen.
  destruct (IH a Hlen E) as [-> ->]. auto.
Qed.

(** Two controls that start at the same place are the same control. *)
Lemma control_unique b b' id id' (r r' : str) :
  forallb id_char id = true -> forallb id_char id' = true ->
  control b id ++ r = control b' id' ++ r' ->
  b = b' /\ id = id' /\ r = r'.
Proof.
  intros Hid Hid' E. unfold control in E. rewrite <- !app_assoc in E.
  apply app_inv_head in E.
  assert (Hq : id_char dquote = false) by reflexivity.
  assert (Hids : forall (s s' : str),
             control_mid ++ id ++ control_tail ++ s = control_mid ++ id' ++ control_tail ++ s' ->
             id = id' /\ s = s').
  { intros s s' E'. apply app_inv_head in E'. unfold control_tail in E'. simpl in E'.
    destruct (TokenMatcherMore.class_prefix_unique id_char _ _ _ _ _ _ Hid Hid' Hq Hq E')
      as (-> & _ & E''). injection E'' as ->. auto. }
  destruct b, b'.
  - simpl in E. destruct (Hids _ _ E) as [-> ->]. auto.
  - simpl in E. discriminate.
  - simpl in E. discriminate.
  - apply app_inv_head in E.
    destruct (Hids _ _ E) as [-> ->]. auto.
Qed.

Lemma control_nonempty b id : control b id <> [].
Proof. unfold control, control_head. discriminate. Qed.

(** *** The first control of the identifier *)

Lemma toggle_at (pre post id : str) (b b' : bool) (w : World) :
  forallb id_char id = true ->
  ~ has_control id pre ->
  toggleCheckbox (pre ++ control b id ++ post) b' id w
  = Returned tt (written (pre ++ control b' id ++ post) w).
Proof.
  intros Hid Hpre.
  assert (Hhas : has_control id (pre ++ control b id ++ post)).
  { destruct b; [left | right]; now exists pre, post. }
  destruct (toggle_present _ b' id w (id_chars_plain _ Hid) Hhas)
    as (pre0 & old0 & post0 & E & Hold & Hfirst & Hres).
  rewrite Hres. clear Hres. f_equal. f_equal.
  assert (Hold' : exists b0, old0 = control b0 id)
    by (destruct Hold; [exists true | exists false]; assumption).
  destruct Hold' as (b0 & ->).
  destruct (tag_like_apart pre (control b id) post pre0 (control b0 id) post0)
    as [(u & Hu) | [Hlen | (u & Hu)]];
    [now apply control_tag_like | now apply control_tag_like | exact E | | |].
  - exfalso. apply Hpre. destruct b0; [left | right]; now exists pre0, u.
  - destruct (same_start _ _ _ _ Hlen E) as [-> E'].
    destruct (control_unique _ _ _ _ _ _ Hid Hid E') as (_ & _ & ->). reflexivity.
  - exfalso.
    assert (Hle : length pre0 <= length pre).
    { apply (Hfirst pre (control b id) post eq_refl). destruct b; auto. }
    apply (f_equal (@length ascii)) in E. rewrite Hu, !length_app in E.
    pose proof (control_nonempty b id) as Hne.
    destruct (control b id); [congruence|]. simpl in E. lia.
Qed.

(** X7.  For an identifier as the generator issues it: if the text before
    a control of the identifier holds no control of the identifier, a toggle
    hands the vault the document with that control in the state asked for
    and with all text before and after the control as it was. *)
Theorem toggleCheckbox_sets_first_control
    (pre post id : str) (b isChecked : bool) (w : World) :
  forallb id_char id = true ->
  ~ has_control id pre ->
  toggleCheckbox (pre ++ control b id ++ post) isChecked id w
  = Returned tt (written (pre ++ control isChecked id ++ post) w).
Proof. apply toggle_at. Qed.

Lemma toggleCheckbox_sets_first_control_witness :
  let pre := lit "| " ++ control false (lit "def456") ++ lit " | " in
  let post := lit " | " ++ control false (lit "abc123") ++ lit " |" in
  let w := MkWorld (MkEditor (pre ++ control false (lit "abc123") ++ post) [Rng 0 0])
                   (fun _ => 0%N) 0 [] in
  toggleCheckbox (pre ++ control false (lit "abc123") ++ post) true (lit "abc123") w
  = Returned tt (written (pre ++ control true (lit "abc123") ++ post) w).
Proof.
  intros pre post w.
  apply (toggleCheckbox_sets_first_control pre post (lit "abc123") false true w).
  - reflexivity.
  - apply no_control_by_search; reflexivity.
Defined.

(** X8.  Round trip.  Toggling the first control of an identifier to the
    other state and then back hands the vault, the second time, the text
    the document had at the start, character for character. *)
Theorem toggleCheckbox_round_trip (pre post id : str) (b : bool) (w : World) :
  forallb id_char id = true ->
  ~ has_control id pre ->
  let page := pre ++ control b id ++ post in
  let toggled := pre ++ control (negb b) id ++ post in
  toggleCheckbox page (negb b) id w = Returned tt (written toggled w) /\
  toggleCheckbox toggled b id (written toggled w)
  = Returned tt (written page (written toggled w)).
Proof.
  intros Hid Hpre page toggled. split; now apply toggle_at.
Qed.

Lemma toggleCheckbox_round_trip_witness :
  let pre := lit "| task | " in
  let post := lit " |" in
  let id := lit "abc123" in
  let w := MkWorld (MkEditor (pre ++ control false id ++ post) [Rng 0 0])
                   (fun _ => 0%N) 0 [] in
  let page := pre ++ control false id ++ post in
  let toggled := pre ++ control (negb false) id ++ post in
  toggleCheckbox page (negb false) id w = Returned tt (written toggled w) /\
  toggleCheckbox toggled false id (written toggled w)
  = Returned tt (written page (written toggled w)).
Proof.
  intros pre post id w.
  apply (toggleCheckbox_round_trip pre post id false w).
  - reflexivity.
  - apply no_control_by_search; reflexivity.
Defined.

(** X9.  A toggle keeps the controls of the other identifiers: every
    control of another issued identifier that stands in the document stands
    in the text handed to the vault, whatever its state. *)
Theorem toggleCheckbox_keeps_other_controls
    (pre post id : str) (b isChecked : bool) (id2 : str) (b2 : bool) (w : World) :
  forallb id_char id = true ->
  forallb id_char id2 = true ->
  id2 <> id ->
  ~ has_control id pre ->
  occurs (control b2 id2) (pre ++ control b id ++ post) ->
  toggleCheckbox (pre ++ control b id ++ post) isChecked id w
  = Returned tt (written (pre ++ control isChecked id ++ post) w) /\
  occurs (control b2 id2) (pre ++ control isChecked id ++ post).
Proof.
  intros Hid Hid2 Hne Hpre (a & c & E). split; [now apply toggle_at|].
  destruct (tag_like_apart pre (control b id) post a (control b2 id2) c)
    as [(u & ->) | [Hlen | (u & ->)]];
    [now apply control_tag_like | now apply control_tag_like | exact E | | |].
  - exists a, (u ++ control isChecked id ++ post). now rewrite <- !app_assoc.
  - exfalso. destruct (same_start _ _ _ _ Hlen E) as [_ E'].
    destruct (control_unique _ _ _ _ _ _ Hid Hid2 E') as (_ & Eid & _). congruence.
  - exists (pre ++ control isChecked id ++ u), c. now rewrite <- !app_assoc.
Qed.

Lemma toggleCheckbox_keeps_other_controls_witness :
  let pre := lit "| " ++ control true (lit "def456") ++ lit " | " in
  let post := lit " |" in
  let w := MkWorld (MkEditor (pre ++ control false (lit "abc123") ++ post) [Rng 0 0])
                   (fun _ => 0%N) 0 [] in
  toggleCheckbox (pre ++ control false (lit "abc123") ++ post) true (lit "abc123") w
  = Returned tt (written (pre ++ control true (lit "abc123") ++ post) w) /\
  occurs (control true (lit "def456")) (pre ++ control true (lit "abc123") ++ post).
Proof.
  intros pre post w.
  apply (toggleCheckbox_keeps_other_controls
           pre post (lit "abc123") false true (lit "def456") true w).
  - reflexivity.
  - reflexivity.
  - discriminate.
  - apply no_control_by_search; reflexivity.
  - exists (lit "| "), (lit " | " ++ control false (lit "abc123") ++ post). reflexivity.
Defined.

End ToggleSynchronizerMore.

(** ** The bulk converter: the scan, the batch and the worlds left behind *)

Module BulkConverterMore.

Import JS Regex RegexFacts Host Run Plugin.
Import IdentifierGenerator IdentifierGeneratorMore BulkScan Placeholders SpanOffsets.
Import BulkConverter.
Local Open Scope run_scope.

(** X10.  The scan always comes to an end, and what it records are complete
    checkbox tokens: every span lies in one line, its text is a token, and
    the spans are in document order and do not overlap. *)
Theorem getCheckboxesToConvert_records_tokens (page : str) (flag : bool) :
  exists spans,
    getCheckboxesToConvert page flag = Some spans /\
    Forall (fun sp => line (fst sp) = line (snd sp) /\
                      line (fst sp) < length (split_lines page) /\
                      token (sub page (fst (span_range page sp)) (snd (span_range page sp))))
           spans /\
    ordered 0 (map (span_range page) spans) (length page).
Proof.
  destruct (scan_lines_total flag (split_lines page) 0) as (spans & E).
  exists spans. split; [exact E|]. split; [|now apply (scanned_spans_ordered page flag)].
  apply Forall_forall. intros sp Hsp.
  destruct (scanned_span page flag spans sp E Hsp) as [_ Htok].
  destruct (scan_lines_sound _ _ _ _ _ E Hsp) as (j & l & fs & f & Hj & _ & _ & _ & ->).
  split; [reflexivity|]. split; [|exact Htok].
  simpl. apply nth_error_Some. congruence.
Qed.

(** X11.  Turning the option on never loses a conversion: every span that
    is recorded with the flag off is recorded with the flag on. *)
Theorem getCheckboxesToConvert_flag_monotone (page : str) :
  exists tableOnly everywhere,
    getCheckboxesToConvert page false = Some tableOnly /\
    getCheckboxesToConvert page true = Some everywhere /\
    incl tableOnly everywhere.
Proof.
  destruct (scan_lines_total false (split_lines page) 0) as (off & Eoff).
  destruct (scan_lines_total true (split_lines page) 0) as (on & Eon).
  exists off, on. split; [exact Eoff|]. split; [exact Eon|].
  intros sp Hsp.
  destruct (scan_lines_sound _ _ _ _ _ Eoff Hsp) as (j & l & fs & f & Hj & _ & Hfs & Hf & ->).
  exact (scan_lines_complete _ _ _ _ _ _ _ _ Eon Hj (or_introl eq_refl) Hfs Hf).
Qed.

(** X12.  With the flag off, every complete token of a table-context line
    is recorded for conversion. *)
Theorem getCheckboxesToConvert_table_line (page : str) (i : nat) (line a w b : str) :
  nth_error (split_lines page) i = Some line ->
  isMDCheckboxInTable line = true ->
  line = a ++ w ++ b ->
  token w ->
  exists spans,
    getCheckboxesToConvert page false = Some spans /\
    In (Pos i (Z.of_nat (length a)), Pos i (Z.of_nat (length a + length w))) spans.
Proof.
  intros Hi Htable Hline Hw.
  destruct (scan_lines_total false (split_lines page) 0) as (spans & E).
  exists spans. split; [exact E|].
  destruct (exec_all_total line) as (fs & Efs).
  pose proof (exec_loop_finds_token _ _ _ _ a w b Efs Hline Hw) as Hf.
  exact (scan_lines_complete _ _ _ _ _ _ _ _ E Hi (or_intror Htable) Efs Hf).
Qed.

Lemma getCheckboxesToConvert_table_line_witness :
  let page := lit "# Tasks" ++ newline :: lit "> | done | -[ ] |" in
  exists spans,
    getCheckboxesToConvert page false = Some spans /\
    In (Pos 1 (Z.of_nat (length (lit "> | done | "))),
        Pos 1 (Z.of_nat (length (lit "> | done | ") + length (lit "-[ ]")))) spans.
Proof.
  intros page.
  apply (getCheckboxesToConvert_table_line page 1 (lit "> | done | -[ ] |")
           (lit "> | done | ") (lit "-[ ]") (lit " |")).
  - reflexivity.
  - reflexivity.
  - reflexivity.
  - apply (Token [] [" "%char]); [now left | right; exists " "%char; split; reflexivity].
Defined.

Lemma scan_lines_no_table : forall lines n,
  (forall line, In line lines -> isMDCheckboxInTable line = false) ->
  scan_lines false lines n = Some [].
Proof.
  induction lines as [|line lines IH]; intros n H; simpl; [reflexivity|].
  rewrite (H line (or_introl eq_refl)). simpl. apply IH. intros l Hl. apply H. now right.
Qed.

(** X13.  With the flag off, a document without a table-context line is
    left as it is: nothing is recorded, and the pass ends before any text is
    replaced, any identifier is drawn or anything is written. *)
Theorem convertAllCheckboxes_without_table (fuel : nat) (w : World) :
  (forall line, In line (split_lines (value (editor w))) ->
                isMDCheckboxInTable line = false) ->
  getCheckboxesToConvert (value (editor w)) false = Some [] /\
  convertAllCheckboxes fuel false w = Thrown w.
Proof.
  intros H.
  assert (E : getCheckboxesToConvert (value (editor w)) false = Some [])
    by now apply scan_lines_no_table.
  split; [exact E|].
  unfold convertAllCheckboxes, bind, get_editor, getValue. now rewrite E.
Qed.

Lemma no_table_by_check page :
  forallb (fun line => negb (isMDCheckboxInTable line)) (split_lines page) = true ->
  forall line, In line (split_lines page) -> isMDCheckboxInTable line = false.
Proof.
  intros H line Hl. rewrite forallb_forall in H. apply negb_true_iff. now apply H.
Qed.

Lemma convertAllCheckboxes_without_table_witness :
  let page := lit "- [ ] buy milk" ++ newline :: lit "Name | - [ ]" in
  let w := MkWorld (MkEditor page [Rng 0 0]) SingleConverter.some_entropy 0 [] in
  getCheckboxesToConvert (value (editor w)) false = Some [] /\
  convertAllCheckboxes 1 false w = Thrown w.
Proof.
  intros page w. apply (convertAllCheckboxes_without_table 1 w).
  apply no_table_by_check. reflexivity.
Defined.

Lemma draw_id_returned (fuel : nat) (w : World) (id : str) (w' : World) :
  draw_id fuel w = Returned id w' ->
  ~ occurs id (value (editor w)) /\ well_formed_id id /\
  editor w' = editor w /\ vault w' = vault w /\ entropy w' = entropy w /\
  draws w < draws w'.
Proof.
  unfold draw_id, bind, get_editor, getValue, generateUniqueCheckboxId, randomUUID.
  intros H. apply generate_loop_returned in H.
  - destruct H as (H1 & H2 & H3 & H4 & H5 & H6). cbn [editor vault entropy draws] in *.
    split; [exact H1|]. split; [exact H2|]. repeat split; auto.
  - split; [apply slice_id_chars, uuid_text_id_chars | left; apply last_six_length].
Qed.

(** X14.  Whenever the identifiers of a batch have been drawn, there is one
    for every span; none of them occurs in the document; each is made of
    hexadecimal digits and hyphens, six or thirty-six characters long; and
    the editor and the vault are as they were. *)
Theorem draw_ids_returned (fuel : nat) : forall (k : nat) (w : World) ids w',
  times k (draw_id fuel) w = Returned ids w' ->
  length ids = k /\
  Forall (fun id => ~ occurs id (value (editor w)) /\ well_formed_id id) ids /\
  editor w' = editor w /\ vault w' = vault w /\ entropy w' = entropy w /\
  draws w + k <= draws w'.
Proof.
  induction k as [|k IH]; intros w ids w' H.
  - injection H as <- <-. repeat split; auto. lia.
  - cbn [times] in H. unfold bind at 1 in H.
    destruct (draw_id fuel w) as [id w1| |] eqn:E1; try discriminate.
    unfold bind at 1 in H.
    destruct (times k (draw_id fuel) w1) as [ids1 w2| |] eqn:E2; try discriminate.
    injection H as <- <-.
    apply draw_id_returned in E1.
    destruct E1 as (Hfresh & Hwf & He & Hv & Hent & Hd).
    apply IH in E2. destruct E2 as (Hlen & Hall & He2 & Hv2 & Hent2 & Hd2).
    rewrite He in Hall.
    split; [simpl; now rewrite Hlen|]. split; [now constructor|].
    repeat split; try congruence. lia.
Qed.

Lemma draw_ids_returned_witness :
  let page := lit "| -[] | -[] |" in
  let w := MkWorld (MkEditor page [Rng 0 0]) SingleConverter.some_entropy 0 [] in
  let ids := [lit "abcdef"; lit "abcdef"] in
  length ids = 2 /\
  Forall (fun id => ~ occurs id (value (editor w)) /\ well_formed_id id) ids /\
  editor (with_draws w 2) = editor w /\ vault (with_draws w 2) = vault w /\
  entropy (with_draws w 2) = entropy w /\
  draws w + 2 <= draws (with_draws w 2).
Proof.
  intros page w ids. apply (draw_ids_returned 1 2 w ids (with_draws w 2)).
  vm_compute. reflexivity.
Defined.

End BulkConverterMore.

(** ** The listener of [input] events, from the key to the control *)

Module InputListener.

Import JS Regex RegexFacts Host Run Plugin TokenMatcher IdentifierGenerator.
Import BulkScan Placeholders SpanOffsets.
Import TokenMatcherMore SingleConverterMore IdentifierGeneratorMore.
Local Open Scope run_scope.

(** *** The window at the start of a line *)

Lemma slice_length (s : str) (a b : Z) :
  length (slice s a b)
  <= Z.to_nat (Z.max (clampIndex (Z.of_nat (length s)) b
                      - clampIndex (Z.of_nat (length s)) a) 0).
Proof. unfold slice. rewrite length_firstn. lia. Qed.

(** Before column 4 the start of the window, [ch - 4], is negative and
    counts from the end of the line: in a line of four characters or more
    the window holds one character at most. *)
Lemma getCheckboxLength_window_wraps (viewData : str) (ch : Z) :
  (0 <= ch < 4)%Z -> 4 <= length viewData -> getCheckboxLength viewData ch = None.
Proof.
  intros Hch Hlen. unfold getCheckboxLength.
  set (stop := (if charIs viewData ch "]" then ch + 1 else ch)%Z).
  assert (Hstop : (ch <= stop <= ch + 1)%Z)
    by (unfold stop; destruct (charIs viewData ch "]"); lia).
  destruct (exec checkboxRegex (slice viewData (ch - 4) stop)) as [f|] eqn:E;
    [|reflexivity].
  exfalso. unfold exec in E. apply search_from_sound in E.
  destruct E as (p & _ & Hs & Hm & _).
  apply checkboxRegex_matches, typed_token_length in Hm.
  pose proof (slice_length viewData (ch - 4) stop) as Hl.
  rewrite Hs, !length_app in Hl. unfold clampIndex in Hl.
  destruct (Z.ltb_spec (ch - 4) 0); [|lia].
  destruct (Z.ltb_spec stop 0); lia.
Qed.

Lemma offsetToPos_lines_ch : forall ls n off,
  (0 <= Host.ch (offsetToPos_lines ls n off))%Z.
Proof.
  induction ls as [|l ls IH]; intros n off; [simpl; lia|].
  destruct ls as [|l' ls]; [simpl; lia|].
  change (offsetToPos_lines (l :: l' :: ls) n off)
    with (if off <=? length l then Pos n (Z.of_nat off)
          else offsetToPos_lines (l' :: ls) (S n) (off - S (length l))).
  destruct (off <=? length l); [simpl; lia | apply IH].
Qed.

(** X15.  With the cursor before column 4 of a line of four characters or
    more, [getCheckboxLength] finds nothing, whatever the line holds, and
    the listener of [input] events leaves everything as it is. *)
Theorem onInput_near_line_start (fuel : nat) (data : str) (w : World) :
  let location := getCursor_anchor (editor w) in
  let rowValue := getLine (line location) (editor w) in
  (Host.ch location < 4)%Z -> 4 <= length rowValue ->
  getCheckboxLength rowValue (Host.ch location) = None /\
  onInput fuel data w = Returned tt w.
Proof.
  intros location rowValue Hch Hlen.
  assert (Hnone : getCheckboxLength rowValue (Host.ch location) = None).
  { apply getCheckboxLength_window_wraps; [|exact Hlen].
    split; [|exact Hch]. apply offsetToPos_lines_ch. }
  split; [exact Hnone|]. unfold onInput.
  destruct (negb (str_eqb data (lit "]"))); [reflexivity|].
  unfold bind at 1. unfold get_editor at 1. fold location. fold rowValue.
  destruct (negb (isMDCheckboxInTable rowValue)
            || closingBracketIsTooFar rowValue (Host.ch location)); [reflexivity|].
  now rewrite Hnone.
Qed.

Lemma onInput_near_line_start_witness :
  let w := MkWorld (MkEditor (lit "|-[] | b |") [Rng 3 3])
                   SingleConverter.some_entropy 0 [] in
  getCheckboxLength (getLine (line (getCursor_anchor (editor w))) (editor w))
                    (Host.ch (getCursor_anchor (editor w))) = None /\
  onInput 3 (lit "]") w = Returned tt w.
Proof.
  intros w. apply (onInput_near_line_start 3 (lit "]") w).
  - vm_compute. reflexivity.
  - vm_compute. lia.
Defined.

(** *** From the key to the control *)

(** The token found in the window, when it ends where the window ends and
    its closing bracket is the character at the cursor, stands in the line
    where the selection of [handleCheckboxReplacement] is made. *)
Lemma token_window (line : str) (n : nat) (ch : Z) (p checkbox : str) :
  (4 <= ch <= Z.of_nat (length line))%Z ->
  exec checkboxRegex
    (slice line (ch - 4) (if charIs line ch "]" then ch + 1 else ch))
    = Some (Found p checkbox []) ->
  endsWith checkbox "]" = charIs line ch "]" ->
  exists pre post,
    line = pre ++ checkbox ++ post /\
    2 <= length checkbox /\
    selection_ends (Pos n ch) checkbox
    = (Pos n (Z.of_nat (length pre)), Pos n (Z.of_nat (length pre + length checkbox))).
Proof.
  intros Hch Hexec Hends.
  set (stop := (if charIs line ch "]" then ch + 1 else ch)%Z) in *.
  assert (Hstop : (ch <= stop <= Z.of_nat (length line))%Z).
  { unfold stop. destruct (charIs line ch "]") eqn:Ec; [|lia].
    unfold charIs, charAt in Ec. destruct (Z.ltb_spec ch 0) as [|_]; [discriminate|].
    destruct (nth_error line (Z.to_nat ch)) eqn:En; [|discriminate].
    assert (Z.to_nat ch < length line) by (apply nth_error_Some; congruence). lia. }
  rewrite slice_inside in Hexec by lia.
  unfold exec in Hexec. apply search_from_sound in Hexec.
  destruct Hexec as (p' & Hb & Hs & Hm & _). cbn [before matched after] in Hb, Hs, Hm.
  simpl in Hb. subst p'. rewrite app_nil_r in Hs.
  apply checkboxRegex_matches, typed_token_length in Hm.
  assert (Hlen : length p + length checkbox = Z.to_nat stop - Z.to_nat (ch - 4)).
  { rewrite <- length_app, <- Hs. apply sub_length. lia. }
  exists (firstn (Z.to_nat (ch - 4)) line ++ p), (skipn (Z.to_nat stop) line).
  split; [|split; [lia|]].
  - rewrite <- app_assoc. rewrite (app_assoc p). rewrite <- Hs.
    apply sub_split. lia.
  - unfold selection_ends. rewrite Hends. cbn [Host.line Host.ch]. fold stop.
    rewrite length_app, length_firstn. f_equal; f_equal; lia.
Qed.

(** The offset of a column of line [n]. *)
Lemma offset_in_line (page : str) (n : nat) (line : str) :
  nth_error (split_lines page) n = Some line ->
  exists X Y,
    page = X ++ line ++ Y /\
    forall a, a <= length line -> posToOffset page (Pos n (Z.of_nat a)) = length X + a.
Proof.
  intros Hn.
  assert (Hlt : n < length (split_lines page)) by (apply nth_error_Some; congruence).
  assert (Hnth : nth n (split_lines page) [] = line) by now apply nth_error_nth.
  destruct (line_at _ _ _ Hn) as (X & Y & EX & HX). rewrite join_split in EX.
  exists X, Y. split; [exact EX|]. intros a Ha.
  unfold posToOffset. cbn [Host.line Host.ch].
  apply Nat.ltb_lt in Hlt. rewrite Hlt, Hnth, clip_in_line by lia. lia.
Qed.

(** One selected piece of the text gives way to another text, and the
    cursor stands after it. *)
Lemma replace_one_selection (X piece Y t : str) :
  replaceSelection t
    (MkEditor (X ++ piece ++ Y) [Rng (length X) (length X + length piece)])
  = MkEditor (X ++ t ++ Y) [Rng (length X + length t) (length X + length t)].
Proof.
  unfold replaceSelection. cbn [value selections map carets_after splice].
  unfold range_from, range_to. cbn [anchor head].
  rewrite Nat.min_l, Nat.max_r by lia. f_equal.
  - unfold sub. rewrite Nat.sub_0_r. cbn [skipn].
    rewrite firstn_app, firstn_all, Nat.sub_diag. cbn [firstn]. rewrite app_nil_r.
    f_equal. f_equal.
    rewrite (app_assoc X piece Y), skipn_app, skipn_all2 by (rewrite length_app; lia).
    rewrite length_app.
    replace (length X + length piece - (length X + length piece)) with 0 by lia.
    reflexivity.
  - f_equal. f_equal; lia.
Qed.

(** X16.  A closing bracket typed in a table row, the cursor at column 4
    or later, the token found ending where the window ends with its closing
    bracket (if it has one) at the cursor, and one of the candidates of the
    generator not in the document: the listener of [input] events returns,
    and the document is the one before with the token, and nothing else,
    replaced by an unchecked control whose identifier did not occur in the
    document; the cursor stands after the control; the vault is as it
    was. *)
Theorem onInput_converts_typed_token
    (w : World) (n : nat) (line : str) (ch : Z) (p checkbox : str) (k : nat) :
  getCursor_anchor (editor w) = Pos n ch ->
  nth_error (split_lines (value (editor w))) n = Some line ->
  isMDCheckboxInTable line = true ->
  closingBracketIsTooFar line ch = false ->
  (4 <= ch <= Z.of_nat (length line))%Z ->
  exec checkboxRegex
    (slice line (ch - 4) (if charIs line ch "]" then ch + 1 else ch))
    = Some (Found p checkbox []) ->
  endsWith checkbox "]" = charIs line ch "]" ->
  ~ occurs (candidate w k) (value (editor w)) ->
  exists pre post id d',
    value (editor w) = pre ++ checkbox ++ post /\
    length pre = posToOffset (value (editor w)) (fst (selection_ends (Pos n ch) checkbox)) /\
    ~ occurs id (value (editor w)) /\
    forall fuel, k <= fuel ->
      onInput fuel (lit "]") w =
        Returned tt
          (MkWorld (MkEditor (pre ++ control false id ++ post)
                             [Rng (length pre + length (control false id))
                                  (length pre + length (control false id))])
                   (entropy w) d' (vault w)).
Proof.
  intros Hcur Hn Hmd Htoo Hch Hexec Hends Hfresh.
  destruct (token_window line n ch p checkbox Hch Hexec Hends)
    as (pre0 & post0 & Hline & Hlen & Hsel).
  destruct checkbox as [|c0 cb]; [simpl in Hlen; lia|].
  set (checkbox := c0 :: cb) in *.
  destruct (offset_in_line _ n line Hn) as (X & Y & Hpage & Hoff).
  set (w1 := MkWorld (MkEditor (value (editor w))
                        [Rng (length X + length pre0)
                             (length X + (length pre0 + length checkbox))])
                     (entropy w) (draws w) (vault w)).
  destruct (generate_returns (value (editor w)) w1 k Hfresh)
    as (id & d' & H1 & _ & _ & H4).
  assert (Hlen' : length line = length pre0 + (length checkbox + length post0))
    by (rewrite Hline, !length_app; reflexivity).
  assert (Hdoc : value (editor w) = (X ++ pre0) ++ checkbox ++ (post0 ++ Y)).
  { rewrite Hpage at 1. rewrite Hline. now rewrite <- !app_assoc. }
  exists (X ++ pre0), (post0 ++ Y), id, d'.
  split; [exact Hdoc|]. split.
  { rewrite Hsel. cbn [fst]. rewrite Hoff by lia. apply length_app. }
  split; [exact H1|]. intros fuel Hfuel.
  unfold onInput. change (negb (str_eqb (lit "]") (lit "]"))) with false. cbv iota.
  unfold bind at 1. unfold get_editor at 1. rewrite Hcur. cbn [Host.line Host.ch].
  assert (Hrow : getLine n (editor w) = line)
    by (unfold getLine; now apply nth_error_nth).
  rewrite Hrow, Hmd, Htoo. cbn [negb orb].
  unfold getCheckboxLength. rewrite Hexec. cbn [matched].
  match goal with
  | |- _ = ?R => change (handleCheckboxReplacement fuel (Pos n ch) checkbox w = R)
  end.
  unfold handleCheckboxReplacement. rewrite Hsel.
  unfold bind at 1. unfold get_editor at 1.
  unfold bind at 1. unfold put_editor at 1.
  unfold setSelection. rewrite !Hoff by lia.
  unfold bind at 1. unfold get_editor at 1. cbn [editor getValue value].
  fold w1. unfold bind at 1. rewrite (H4 fuel Hfuel).
  unfold bind, get_editor, put_editor, with_draws, w1. cbn [editor entropy draws vault].
  replace (length X + (length pre0 + length checkbox))
    with (length (X ++ pre0) + length checkbox) by (rewrite length_app; lia).
  replace (length X + length pre0) with (length (X ++ pre0))
    by apply length_app.
  rewrite Hdoc at 1. rewrite replace_one_selection. reflexivity.
Qed.

Lemma onInput_converts_typed_token_witness :
  let page := lit "| task | done |" ++ newline :: lit "| abcdef | -[] |" in
  let w := MkWorld (MkEditor page [Rng 29 29]) SingleConverter.some_entropy 0 [] in
  exists pre post id d',
    value (editor w) = pre ++ lit "-[]" ++ post /\
    length pre = posToOffset (value (editor w))
                   (fst (selection_ends (Pos 1 13) (lit "-[]"))) /\
    ~ occurs id (value (editor w)) /\
    forall fuel, 1 <= fuel ->
      onInput fuel (lit "]") w =
        Returned tt
          (MkWorld (MkEditor (pre ++ control false id ++ post)
                             [Rng (length pre + length (control false id))
                                  (length pre + length (control false id))])
                   (entropy w) d' (vault w)).
Proof.
  intros page w.
  apply (onInput_converts_typed_token w 1 (lit "| abcdef | -[] |") 13 (lit "| ")
           (lit "-[]") 1).
  - reflexivity.
  - reflexivity.
  - reflexivity.
  - reflexivity.
  - simpl. lia.
  - reflexivity.
  - reflexivity.
  - apply exec_literal_none. vm_compute. reflexivity.
Defined.

End InputListener.

(** ** What the converters leave alone *)

Module Effects.

Import JS Regex Host Run Plugin.
Local Open Scope run_scope.

(** A run that writes nothing to the vault and leaves the random source as
    it is, but for the identifiers it draws. *)
Definition editor_only {A} (c : M A) : Prop :=
  forall w w', world_after (c w) = Some w' ->
    vault w' = vault w /\ entropy w' = entropy w /\ draws w <= draws w'.

Lemma editor_only_ret {A} (a : A) : editor_only (ret a).
Proof. intros w w' H. injection H as <-. repeat split; auto. Qed.

Lemma editor_only_throw {A} : editor_only (@throw A).
Proof. intros w w' H. injection H as <-. repeat split; auto. Qed.

Lemma editor_only_stuck {A} : editor_only (@stuck A).
Proof. intros w w' H. discriminate. Qed.

Lemma editor_only_get_editor : editor_only get_editor.
Proof. intros w w' H. injection H as <-. repeat split; auto. Qed.

Lemma editor_only_put_editor e : editor_only (put_editor e).
Proof. intros w w' H. injection H as <-. repeat split; auto. Qed.

Lemma editor_only_randomUUID : editor_only randomUUID.
Proof. intros w w' H. injection H as <-. simpl. repeat split; auto. Qed.

Lemma editor_only_bind {A B} (c : M A) (k : A -> M B) :
  editor_only c -> (forall a, editor_only (k a)) -> editor_only (bind c k).
Proof.
  intros Hc Hk w w' H. unfold bind in H.
  destruct (c w) as [a w1|w1|] eqn:E.
  - destruct (Hc w w1) as (H1 & H2 & H3); [now rewrite E|].
    destruct (Hk a w1 w' H) as (H4 & H5 & H6).
    repeat split; try congruence. lia.
  - apply (Hc w w'). now rewrite E.
  - discriminate.
Qed.

Lemma editor_only_times {A} (c : M A) : editor_only c -> forall n, editor_only (times n c).
Proof.
  intros Hc. induction n as [|n IH]; cbn [times].
  - apply editor_only_ret.
  - apply editor_only_bind; [exact Hc|]. intros x.
    apply editor_only_bind; [exact IH|]. intros xs. apply editor_only_ret.
Qed.

Lemma editor_only_generate_loop page : forall fuel id,
  editor_only (generate_loop fuel id page).
Proof.
  induction fuel as [|fuel IH]; intros id; cbn [generate_loop];
    destruct (idExistsInFile id page) as [[|]|];
    try apply editor_only_stuck; try apply editor_only_ret.
  apply editor_only_bind; [apply editor_only_randomUUID | intros id'; apply IH].
Qed.

Lemma editor_only_generateUniqueCheckboxId fuel page :
  editor_only (generateUniqueCheckboxId fuel page).
Proof.
  apply editor_only_bind; [apply editor_only_randomUUID|].
  intros u. apply editor_only_generate_loop.
Qed.

Lemma editor_only_handleCheckboxReplacement fuel location checkbox :
  editor_only (handleCheckboxReplacement fuel location checkbox).
Proof.
  unfold handleCheckboxReplacement, selection_ends.
  apply editor_only_bind; [apply editor_only_get_editor | intros e].
  apply editor_only_bind; [apply editor_only_put_editor | intros _].
  apply editor_only_bind; [apply editor_only_get_editor | intros e1].
  apply editor_only_bind; [apply editor_only_generateUniqueCheckboxId | intros id].
  apply editor_only_bind; [apply editor_only_get_editor | intros e2].
  apply editor_only_put_editor.
Qed.

Lemma editor_only_onInput fuel data : editor_only (onInput fuel data).
Proof.
  unfold onInput. destruct (negb (str_eqb data (lit "]"))); [apply editor_only_ret|].
  apply editor_only_bind; [apply editor_only_get_editor | intros e].
  cbv zeta.
  destruct (negb _ || _); [apply editor_only_ret|].
  destruct (getCheckboxLength _ _) as [[|c cb]|]; try apply editor_only_ret.
  apply editor_only_handleCheckboxReplacement.
Qed.

Lemma editor_only_convertCheckboxes fuel checkboxes :
  editor_only (convertCheckboxes fuel checkboxes).
Proof.
  unfold convertCheckboxes.
  apply editor_only_bind.
  { apply editor_only_times. apply editor_only_bind; [apply editor_only_get_editor|].
    intros e. apply editor_only_generateUniqueCheckboxId. }
  intros ids. cbv zeta.
  apply editor_only_bind; [apply editor_only_get_editor | intros e].
  destruct (setSelections checkboxes e); [|apply editor_only_throw].
  apply editor_only_bind; [apply editor_only_put_editor | intros _].
  apply editor_only_bind; [apply editor_only_get_editor | intros e1].
  apply editor_only_bind; [apply editor_only_put_editor | intros _].
  apply editor_only_bind; [apply editor_only_get_editor | intros e2].
  apply editor_only_put_editor.
Qed.

Lemma editor_only_convertAllCheckboxes fuel flag :
  editor_only (convertAllCheckboxes fuel flag).
Proof.
  unfold convertAllCheckboxes.
  apply editor_only_bind; [apply editor_only_get_editor | intros e]. cbv zeta.
  destruct (getCheckboxesToConvert _ _); [|apply editor_only_stuck].
  apply editor_only_convertCheckboxes.
Qed.

(** X17.  The two converters work on the editor only: however a run of the
    listener of [input] events or of the command ends, by returning or by an
    exception of the host, nothing has been written to the vault, and the
    random source is as it was but for the identifiers drawn. *)
Theorem converters_write_nothing_to_vault
    (fuel : nat) (data : str) (flag : bool) (w w' : World) :
  world_after (onInput fuel data w) = Some w' \/
  world_after (convertAllCheckboxes fuel flag w) = Some w' ->
  vault w' = vault w /\ entropy w' = entropy w /\ draws w <= draws w'.
Proof.
  intros [H | H].
  - exact (editor_only_onInput fuel data w w' H).
  - exact (editor_only_convertAllCheckboxes fuel flag w w' H).
Qed.

Lemma converters_write_nothing_to_vault_witness :
  let page := lit "| task | done |" ++ newline :: lit "| abcdef | -[] |" in
  let w := MkWorld (MkEditor page [Rng 29 29]) SingleConverter.some_entropy 0
                   [lit "an earlier text"] in
  let w' := MkWorld (MkEditor (lit "| task | done |" ++ newline :: lit "| abcdef | "
                               ++ control false (lit "00000000-0000-4000-8000-000001abcdef")
                               ++ lit " |") [Rng 0 0])
                    SingleConverter.some_entropy 2 [lit "an earlier text"] in
  vault w' = vault w /\ entropy w' = entropy w /\ draws w <= draws w'.
Proof.
  intros page w w'.
  apply (converters_write_nothing_to_vault 1 (lit "]") false w w').
  right. vm_compute. reflexivity.
Defined.

End Effects.

(** ** A second pass after a bulk conversion *)

Module SecondPass.

Import JS Regex RegexFacts Host Run Plugin IdentifierGenerator.
Import BulkScan Placeholders SpanOffsets BulkConverter.
Import SingleConverterMore IdentifierGeneratorMore BulkConverterMore.
Local Open Scope run_scope.

(** *** Tokens and controls share no text *)

Lemma opt_space_without c sp : is_space c = false -> opt_space sp -> ~ In c sp.
Proof.
  intros Hc [-> | (d & Hd & ->)] Hin; [destruct Hin|].
  destruct Hin as [<- | []]. congruence.
Qed.

Lemma token_bracket w : token w -> In "["%char w.
Proof. intros [sp1 sp2 _ _]. right. apply in_or_app. right. now left. Qed.

Lemma token_without c w :
  is_space c = false -> c <> "-"%char -> c <> "["%char -> c <> "]"%char ->
  token w -> ~ In c w.
Proof.
  intros Hs H1 H2 H3 [sp1 sp2 Hsp1 Hsp2] [E | Hin]; [congruence|].
  apply in_app_or in Hin. destruct Hin as [Hin | [E | Hin]];
    [exact (opt_space_without _ _ Hs Hsp1 Hin) | congruence |].
  apply in_app_or in Hin. destruct Hin as [Hin | [E | []]];
    [exact (opt_space_without _ _ Hs Hsp2 Hin) | congruence].
Qed.

(** An unchecked control between its angle brackets. *)
Definition control_inner (id : str) : str :=
  lit "input type=" ++ dquote :: lit "checkbox" ++ dquote :: lit " un"
  ++ control_mid ++ id ++ [dquote].

Lemma control_shape id :
  control false id = "<"%char :: control_inner id ++ [">"%char].
Proof.
  unfold control, control_inner, control_head, control_tail. simpl.
  rewrite <- app_assoc. reflexivity.
Qed.

Lemma control_inner_no_bracket id :
  forallb id_char id = true -> ~ In "["%char (control_inner id).
Proof.
  intros Hid Hin. unfold control_inner, control_mid in Hin. simpl in Hin.
  repeat (destruct Hin as [E | Hin]; [discriminate E|]).
  apply in_app_or in Hin. destruct Hin as [Hin | [E | []]]; [|discriminate E].
  rewrite forallb_forall in Hid. specialize (Hid _ Hin). discriminate Hid.
Qed.

Lemma token_around_control w id G R :
  token w -> forallb id_char id = true ->
  occurs w (G ++ control false id ++ R) -> occurs w G \/ occurs w R.
Proof.
  intros Hw Hid H. rewrite control_shape in H.
  change (G ++ ("<"%char :: control_inner id ++ [">"%char]) ++ R)
    with (G ++ "<"%char :: ((control_inner id ++ [">"%char]) ++ R)) in H.
  apply occurs_around_foreign in H;
    [|apply token_without;
      [reflexivity | discriminate | discriminate | discriminate | exact Hw]].
  destruct H as [H | H]; [now left|].
  rewrite <- app_assoc in H. cbn [app] in H.
  apply occurs_around_foreign in H;
    [|apply token_without;
      [reflexivity | discriminate | discriminate | discriminate | exact Hw]].
  destruct H as [H | H]; [|now right].
  exfalso. apply (control_inner_no_bracket id Hid).
  apply (occurs_in _ _ _ H). now apply token_bracket.
Qed.

(** *** A token of the new text stands in a gap of the old one *)

Lemma ordered_from : forall rs at_ bound x y,
  ordered at_ rs bound -> In (x, y) rs -> at_ <= x /\ x <= y.
Proof.
  induction rs as [|[a b] rs IH]; intros at_ bound x y H Hin; [destruct Hin|].
  simpl in H. destruct H as (H1 & H2 & H3). destruct Hin as [E | Hin].
  - injection E as <- <-. lia.
  - destruct (IH _ _ _ _ H3 Hin). lia.
Qed.

Lemma token_in_gap page w :
  token w ->
  forall rs ids at_,
    length ids = length rs ->
    Forall (fun id => forallb id_char id = true) ids ->
    ordered at_ rs (length page) ->
    occurs w (splice page at_ (control_edits rs ids)) ->
    exists P Q,
      page = P ++ w ++ Q /\ at_ <= length P /\
      ~ In (length P, length P + length w) rs.
Proof.
  intros Hw. pose proof (token_nonempty w Hw) as Hne.
  assert (Hpos : 0 < length w) by (destruct w; [congruence | simpl; lia]).
  induction rs as [|[f t] rs IH]; intros ids at_ Hlen Hids Ho Hocc.
  - destruct ids; [|discriminate]. cbn in Ho, Hocc.
    destruct Hocc as (a & b & E).
    exists (firstn at_ page ++ a), b. split; [|split; [|intros []]].
    + rewrite <- app_assoc, <- E. symmetry. apply firstn_skipn.
    + rewrite length_app, length_firstn. lia.
  - destruct ids as [|id ids]; [discriminate|]. injection Hlen as Hlen.
    inversion Hids as [|? ? Hid Hids']; subst.
    simpl in Ho. destruct Ho as (H1 & H2 & H3).
    pose proof (ordered_le _ _ _ H3) as Hb.
    change (splice page at_ (control_edits ((f, t) :: rs) (id :: ids)))
      with (sub page at_ f ++ control false id
            ++ splice page t (control_edits rs ids)) in Hocc.
    apply token_around_control in Hocc; [|exact Hw | exact Hid].
    destruct Hocc as [Hocc | Hocc].
    + destruct Hocc as (a & b & E).
      assert (Hsub : length a + (length w + length b) = f - at_).
      { rewrite <- (sub_length page at_ f) by lia. rewrite E, !length_app. reflexivity. }
      exists (firstn at_ page ++ a), (b ++ skipn f page).
      assert (HP : length (firstn at_ page ++ a) = at_ + length a)
        by (rewrite length_app, length_firstn; lia).
      split; [|split; [lia|]].
      * rewrite (sub_split page at_ f) at 1 by lia. rewrite E.
        now rewrite <- !app_assoc.
      * rewrite HP. intros [E' | Hin].
        -- injection E' as E1 E2. lia.
        -- destruct (ordered_from _ _ _ _ _ H3 Hin). lia.
    + destruct (IH ids t Hlen Hids' H3 Hocc) as (P & Q & E & Hge & Hnot).
      exists P, Q. split; [exact E|]. split; [lia|].
      intros [E' | Hin]; [|contradiction]. injection E' as E1 E2. lia.
Qed.

(** *** A token of the old text stands in a line, and is recorded *)

Lemma token_line : forall (ls : list str) (P w Q : str),
  w <> [] -> ~ In newline w -> join_lines ls = P ++ w ++ Q ->
  exists j line a b,
    nth_error ls j = Some line /\ line = a ++ w ++ b /\
    line_offset ls j + length a = length P.
Proof.
  induction ls as [|l ls IH]; intros P w Q Hne Hnl E.
  - simpl in E. destruct P; [destruct w; [congruence | discriminate] | discriminate].
  - destruct ls as [|l' ls'].
    + simpl in E. exists 0, l, P, Q. simpl. auto.
    + rewrite join_lines_cons in E by discriminate.
      apply app_eq_app in E. destruct E as (M & [[E1 E2] | [E1 E2]]).
      * apply app_eq_app in E2. destruct E2 as (M' & [[E3 E4] | [E3 E4]]).
        -- destruct M' as [|c M'].
           ++ rewrite app_nil_r in E3. subst M.
              exists 0, l, P, []. simpl. rewrite app_nil_r. auto.
           ++ injection E4 as <- _. exfalso. apply Hnl. rewrite E3.
              apply in_or_app. right. now left.
        -- subst M. exists 0, l, P, M'. simpl. auto.
      * destruct M as [|c M].
        -- simpl in E2. destruct w as [|c w]; [congruence|].
           injection E2 as <- _. exfalso. apply Hnl. now left.
        -- injection E2 as <- E2.
           destruct (IH M w Q Hne Hnl E2) as (j & line & a & b & Hj & Hline & Hoff).
           exists (S j), line, a, b. split; [exact Hj|]. split; [exact Hline|].
           change (line_offset (l :: l' :: ls') (S j))
             with (S (length l) + line_offset (l' :: ls') j).
           rewrite E1, length_app. cbn [length]. lia.
Qed.

Lemma offset_of_column page j line k :
  nth_error (split_lines page) j = Some line -> k <= length line ->
  posToOffset page (Pos j (Z.of_nat k)) = line_offset (split_lines page) j + k.
Proof.
  intros Hj Hk.
  assert (Hlt : j < length (split_lines page)) by (apply nth_error_Some; congruence).
  assert (Hnth : nth j (split_lines page) [] = line) by now apply nth_error_nth.
  unfold posToOffset. cbn [Host.line Host.ch].
  apply Nat.ltb_lt in Hlt. now rewrite Hlt, Hnth, clip_in_line.
Qed.

Lemma token_recorded page spans P w Q :
  getCheckboxesToConvert page true = Some spans ->
  page = P ++ w ++ Q -> token w -> ~ In newline w ->
  In (length P, length P + length w) (map (span_range page) spans).
Proof.
  intros Hscan E Hw Hnl.
  destruct (token_line (split_lines page) P w Q (token_nonempty w Hw) Hnl)
    as (j & line & a & b & Hj & Hline & Hoff); [now rewrite join_split|].
  destruct (exec_all_total line) as (fs & Efs).
  pose proof (exec_loop_finds_token _ _ _ _ a w b Efs Hline Hw) as Hf.
  pose proof (scan_lines_complete _ _ _ _ _ _ _ _ Hscan Hj (or_introl eq_refl) Efs Hf)
    as Hin.
  apply in_map_iff.
  exists (Pos j (Z.of_nat (length a)), Pos j (Z.of_nat (length a + length w))).
  split; [|exact Hin]. unfold span_range. cbn [fst snd].
  assert (Hl : length line = length a + (length w + length b))
    by (rewrite Hline, !length_app; reflexivity).
  rewrite !(offset_of_column page j line) by (assumption || lia).
  f_equal; lia.
Qed.

(** *** The lines of a text *)

Lemma split_lines_aux_no_newline : forall s cur l,
  ~ In newline cur -> In l (split_lines_aux cur s) -> ~ In newline l.
Proof.
  induction s as [|c s IH]; intros cur l Hc Hin; simpl in Hin.
  - destruct Hin as [<- | []]. intros H. apply in_rev in H. contradiction.
  - destruct (ascii_eqb c newline) eqn:E.
    + destruct Hin as [<- | Hin].
      * intros H. apply in_rev in H. contradiction.
      * apply (IH [] l); [intros [] | exact Hin].
    + apply (IH (c :: cur) l); [|exact Hin].
      intros [-> | H]; [|contradiction]. rewrite ascii_eqb_refl in E. discriminate.
Qed.

Lemma line_occurs page line : In line (split_lines page) -> occurs line page.
Proof.
  intros H. apply In_nth_error in H. destruct H as (n & Hn).
  destruct (line_at _ _ _ Hn) as (X & Y & E & _). rewrite join_split in E.
  now exists X, Y.
Qed.

(** *** The batch *)

Lemma batch_returned (fuel : nat) : forall (k : nat) (w : World) ids w1,
  times k (draw_id fuel) w = Returned ids w1 ->
  length ids = k /\ Forall (fun id => forallb id_char id = true) ids /\
  w1 = with_draws w (draws w1).
Proof.
  induction k as [|k IH]; intros w ids w1 H.
  - injection H as <- <-. repeat split; auto. now destruct w.
  - cbn [times] in H. unfold bind at 1 in H.
    destruct (draw_id fuel w) as [id w2| |] eqn:E1; try discriminate.
    unfold bind at 1 in H.
    destruct (times k (draw_id fuel) w2) as [ids1 w3| |] eqn:E2; try discriminate.
    injection H as <- <-.
    apply draw_id_returned in E1. destruct E1 as (_ & [Hid _] & He & Hv & Hent & _).
    apply IH in E2. destruct E2 as (Hlen & Hall & Hw).
    split; [simpl; now rewrite Hlen|]. split; [now constructor|].
    rewrite Hw. unfold with_draws. cbn [editor entropy draws vault].
    now rewrite He, Hv, Hent.
Qed.

(** The text that a bulk conversion which returns leaves in the editor. *)
Lemma returned_text (w w' : World) (flag : bool) (fuel : nat) (spans : list Span) :
  ~ occurs PLACEHOLDER (value (editor w)) ->
  getCheckboxesToConvert (value (editor w)) flag = Some spans ->
  no_stem_before_spans (value (editor w)) spans ->
  convertAllCheckboxes fuel flag w = Returned tt w' ->
  exists ids,
    length ids = length spans /\
    Forall (fun id => forallb id_char id = true) ids /\
    value (editor w')
    = splice (value (editor w)) 0
        (control_edits (map (span_range (value (editor w))) spans) ids).
Proof.
  intros Hpage Hscan Hstem Hrun.
  set (page := value (editor w)) in *.
  set (ranges := map (span_range page) spans).
  unfold convertAllCheckboxes in Hrun. unfold bind at 1 in Hrun.
  unfold get_editor at 1 in Hrun. unfold getValue in Hrun. fold page in Hrun.
  rewrite Hscan in Hrun.
  assert (Hne : spans <> []) by (intros ->; cbv in Hrun; discriminate).
  pose proof (scanned_spans_ordered _ _ _ Hscan) as Ho. fold ranges in Ho.
  destruct (times (length spans) (draw_id fuel) w) as [ids w1|w1|] eqn:Et.
  - destruct (batch_returned _ _ _ _ _ Et) as (Hlen & Hids & Hw1).
    rewrite Hw1 in Et.
    rewrite (convertCheckboxes_run w spans ids (draws w1) fuel Hne Ho Et) in Hrun.
    injection Hrun as <-. exists ids.
    split; [exact Hlen|]. split; [exact Hids|].
    cbn [converted editor value]. fold page. fold ranges.
    apply (fill_placeholders page ranges ids [] 0).
    + unfold ranges. now rewrite length_map.
    + apply closed_nil.
    + apply (gaps_clean_of_page page Hpage ranges 0 (length page) Ho).
      intros r Hr. apply in_map_iff in Hr. destruct Hr as (sp & <- & Hsp).
      now apply Hstem.
    + apply Forall_forall. intros id Hid. rewrite Forall_forall in Hids.
      apply id_chars_issued. now apply Hids.
  - unfold convertCheckboxes in Hrun. unfold bind at 1 in Hrun.
    fold (draw_id fuel) in Hrun. rewrite Et in Hrun. discriminate.
  - unfold convertCheckboxes in Hrun. unfold bind at 1 in Hrun.
    fold (draw_id fuel) in Hrun. rewrite Et in Hrun. discriminate.
Qed.

(** X18.  After a bulk conversion with the option on has returned, in a
    document that did not hold the placeholder and in which no recorded span
    was directly preceded by the placeholder short of its last character or
    of its last two, no raw checkbox token is left in any line, and a
    further bulk conversion, with the option on or off, replaces nothing: it
    ends where the editor refuses an empty list of selections and leaves the
    world as it is. *)
Theorem convertAllCheckboxes_leaves_no_token
    (w w' : World) (fuel : nat) (spans : list Span) :
  ~ occurs PLACEHOLDER (value (editor w)) ->
  getCheckboxesToConvert (value (editor w)) true = Some spans ->
  no_stem_before_spans (value (editor w)) spans ->
  convertAllCheckboxes fuel true w = Returned tt w' ->
  raw_token_free (value (editor w')) /\
  forall fuel' flag, convertAllCheckboxes fuel' flag w' = Thrown w'.
Proof.
  intros Hpage Hscan Hstem Hrun.
  destruct (returned_text w w' true fuel spans Hpage Hscan Hstem Hrun)
    as (ids & Hlen & Hids & Htext).
  set (page := value (editor w)) in *.
  pose proof (scanned_spans_ordered _ _ _ Hscan) as Ho.
  assert (Hfree : raw_token_free (value (editor w'))).
  { intros line Hline a x b E Hx.
    assert (Hnl : ~ In newline x).
    { intros Hin. apply (split_lines_aux_no_newline _ [] line (fun H => H) Hline).
      rewrite E. apply in_or_app. right. apply in_or_app. now left. }
    assert (Hocc : occurs x (value (editor w'))).
    { apply (occurs_trans _ line); [now exists a, b | now apply line_occurs]. }
    rewrite Htext in Hocc.
    destruct (token_in_gap page x Hx (map (span_range page) spans) ids 0)
      as (P & Q & EP & _ & Hnot);
      [now rewrite length_map | exact Hids | exact Ho | exact Hocc |].
    apply Hnot. exact (token_recorded page spans P x Q Hscan EP Hx Hnl). }
  split; [exact Hfree|]. intros fuel' flag.
  assert (E : getCheckboxesToConvert (value (editor w')) flag = Some [])
    by now apply scan_lines_token_free.
  unfold convertAllCheckboxes, bind, get_editor, getValue. now rewrite E.
Qed.

Lemma convertAllCheckboxes_leaves_no_token_witness :
  let page := lit "| a | -[] |" ++ newline :: lit "- [ ] x" in
  let w := MkWorld (MkEditor page [Rng 0 0]) SingleConverter.some_entropy 0 [] in
  let w' := converted w (lit "| a | " ++ control false (lit "abcdef") ++ lit " |"
                         ++ newline :: control false (lit "abcdef") ++ lit " x") 2 in
  raw_token_free (value (editor w')) /\
  forall fuel' flag, convertAllCheckboxes fuel' flag w' = Thrown w'.
Proof.
  intros page w w'.
  apply (convertAllCheckboxes_leaves_no_token w w' 1
           [(Pos 0 6, Pos 0 9); (Pos 1 0, Pos 1 5)]).
  - apply exec_literal_none. vm_compute. reflexivity.
  - vm_compute. reflexivity.
  - apply no_stem_before_spans_by_check. vm_compute. reflexivity.
  - vm_compute. reflexivity.
Defined.

End SecondPass.

(** ** A bulk conversion, line by line *)

Module LineByLine.

Import JS Regex RegexFacts Host Run Plugin IdentifierGenerator.
Import BulkScan Placeholders SpanOffsets BulkConverter.
Import SingleConverterMore SecondPass.
Local Open Scope run_scope.

(** *** Pieces of a text *)





(** *** Edits *)






(** *** The characters of a converted line *)






(** *** The pass over the lines *)


(** *** The lines of the new text *)







End LineByLine.
